(** * flightcontrol: deduplicated calls with merged cancellation

    A shallow embedding of [util/flightcontrol/flightcontrol.go].

    The package is concurrent: goroutines cooperate over a [Group], its
    [call]s, the [sharedContext] that merges the callers' contexts and the
    [progressState] that fans progress out.  The embedding has two layers.

    - The bodies of the critical sections ([signal], [Deadline], [append],
      [add], one iteration of [progressState.run], ...) are pure functions on
      the records of the source.
    - The goroutines are tasks with a program point; one [step] of the system
      executes one atomic action of one task (a critical section under a
      mutex, a channel operation, a [select]).  Which task moves, which
      [select] case is taken when several are ready, what the work function
      returns and when a caller's context completes are given by the [label]
      of the step, so an interleaving is a list of labels and [exec] runs it.

    A step is atomic where the source makes it so: [g.mu] and [ps.mu] each
    protect sections that are one step here; [c.mu] is held across two steps
    of [wait] (the test of [c.ready], then [append]) and is a flag of the call,
    so that [close(c.ready)], which takes no lock, can fall between them.

    The work function and the callers' contexts belong to the users of the
    package: the work function may return any pair and a context may complete
    with any error, the value [errRetry] included, since [Do] itself can hand
    that value to its callers. *)

From stdpp Require Import base option list gmap strings sorting.
From Stdlib Require Import ZArith Lia.

(** ** Values, errors, time *)

(** [error] values the program can meet.  [errRetry] is the package-private
    sentinel of line 18; the other constructors are the errors of contexts and
    of work functions.  No code outside the package can name [errRetry], but
    [Group.Do] can return it (line 51), so a work function or a context that
    passes on what a nested [Do] returned can produce it too.  A Go [error]
    that may be [nil] is an [option error]. *)
Inductive error :=
  | errRetry
  | Canceled
  | DeadlineExceeded
  | UserError (n : nat).

#[global] Instance error_eq_dec : EqDecision error.
Proof. solve_decision. Defined.

(** [interface{}] results: [None] is [nil]. *)
Definition value := option nat.

(** [time.Time] as a count of ticks. *)
Definition Time := Z.

(** ** The progress collaborator (package [progress], consumed only) *)

(** The two fields of [progress.Progress] the multiplexer reads. *)
Record Progress := { ID : string; Timestamp : Time }.

#[global] Instance Progress_eq_dec : EqDecision Progress.
Proof. solve_decision. Defined.

(** A [progress.Writer] value.  [raw] tells whether its dynamic type also
    implements [rawProgressWriter] (lines 219-222), which is what the type
    assertion of line 263 tests. *)
Record Writer := { wid : nat; raw : bool }.

#[global] Instance Writer_eq_dec : EqDecision Writer.
Proof. solve_decision. Defined.

(** The two methods of [rawProgressWriter]; the log of the system records
    every call made on a writer. *)
Inductive wcall :=
  | WriteRawProgress (p : Progress)
  | Close.

Definition wlog := list (Writer * wcall).

(** What [pr.Read] hands to [progressState.run]: a batch, [io.EOF], or
    another error. *)
Inductive read_result :=
  | ReadBatch (ps : list Progress)
  | ReadEOF
  | ReadErr.

(** ** Caller contexts *)

(** A caller's [context.Context].  [cid] is its identity (the same context
    can be passed to several calls of [Do]); its deadline and the progress
    writer it carries do not change.  Whether it has completed, and with which
    error, is kept in the [world]. *)
Record Context := { cid : nat; cdeadline : option Time; cwriter : option Writer }.

#[global] Instance Context_eq_dec : EqDecision Context.
Proof. solve_decision. Defined.

(** The completed contexts, each with the error [ctx.Err()] reports. *)
Abbreviation world := (gmap nat error).

(** [<-ctx.Done()] can proceed. *)
Definition ctx_Done (w : world) (x : Context) : bool :=
  bool_decide (is_Some (w !! cid x)).

(** [ctx.Err()]. *)
Definition ctx_Err (w : world) (x : Context) : option error := w !! cid x.

(** Modelled from the spec: [progress.FromContext] is not part of the
    sources.  "If callerContext carries a progress-writer capability,
    subscribe it": it returns the writer carried by the context, whether
    there is one, and a context with the caller's cancellation, deadline and
    identity. *)
Definition FromContext (x : Context) : option Writer * Context := (cwriter x, x).

(** ** Progress multiplexer (lines 224-284) *)

Record progressState := {
  items : gmap string Progress;
  writers : list Writer;
  ps_done : bool
}.

Definition newProgressState : progressState :=
  {| items := ∅; writers := []; ps_done := false |}.

(** The order [sort.Slice] is asked for at lines 272-274:
    [q.Timestamp.Before(p.Timestamp)] does not hold. *)
Definition not_after (p q : Progress) : Prop :=
  (Timestamp p ≤ Timestamp q)%Z.

#[global] Instance not_after_dec : RelDecision not_after.
Proof. intros p q. unfold not_after. apply _. Defined.

(** [sort.Slice(plist, less)] with that order, as a merge sort.  Go does not
    promise an order between items of equal timestamp, and no statement below
    depends on one. *)
Definition sort_Slice (l : list Progress) : list Progress :=
  merge_sort not_after l.

(** The snapshot [plist] of lines 268-271: the values of [ps.items], in the
    order the map enumerates them. *)
Definition snapshot (ps : progressState) : list Progress :=
  (map_to_list (items ps)).*2.

(** [progressState.add] (lines 262-284): the new state and the calls made on
    writers, in order. *)
Definition add (ps : progressState) (pw : Writer) : progressState * wlog :=
  if raw pw then
    let plist := sort_Slice (snapshot ps) in
    let replay := (λ p, (pw, WriteRawProgress p)) <$> plist in
    if ps_done ps then (ps, replay ++ [(pw, Close)])
    else ({| items := items ps; writers := writers ps ++ [pw];
             ps_done := ps_done ps |}, replay)
  else (ps, []).

(** Lines 252-257: one item of a batch goes to every writer, then is stored
    under its [ID]. *)
Definition run_item (acc : progressState * wlog) (p : Progress)
  : progressState * wlog :=
  let ps := acc.1 in
  ({| items := <[ID p := p]> (items ps); writers := writers ps;
      ps_done := ps_done ps |},
   acc.2 ++ ((λ w, (w, WriteRawProgress p)) <$> writers ps)).

(** One iteration of the loop of [progressState.run] (lines 238-259): the
    state, the calls made on writers, and whether the loop goes on. *)
Definition run_iter (ps : progressState) (r : read_result)
  : progressState * wlog * bool :=
  match r with
  | ReadBatch batch => (foldl run_item (ps, []) batch, true)
  | ReadEOF =>
      ({| items := items ps; writers := writers ps; ps_done := true |},
       (λ w, (w, Close)) <$> writers ps, false)
  | ReadErr => (ps, [], false)
  end.

(** ** The call and its merged context (lines 54-217) *)

(** [sharedContext], without the back pointer to its call: [done] is whether
    the channel is closed. *)
Record sharedContext := { done : bool; sc_err : option error }.

(** [call].  The first eight fields are those of the source ([ready] is
    whether the channel is closed, [once] whether the [sync.Once] has been
    claimed, [fn] names the work function).  The last four are the state the
    source keeps elsewhere: whether [mu] is held, a counter of the entries
    into [run], what [fn] returned, and whether [closeProgressWriter] has
    been called. *)
Record call := Call {
  result : value;
  err : option error;
  ready : bool;
  ctx : sharedContext;
  ctxs : list Context;
  fn : nat;
  once : bool;
  progress_st : progressState;
  mu : bool;
  runs : nat;
  fn_out : option (value * option error);
  pw_closed : bool
}.

Definition set_result (v : value) (e : option error) (c : call) : call :=
  Call v e (ready c) (ctx c) (ctxs c) (fn c) (once c) (progress_st c)
       (mu c) (runs c) (fn_out c) (pw_closed c).
Definition set_ready (c : call) : call :=
  Call (result c) (err c) true (ctx c) (ctxs c) (fn c) (once c)
       (progress_st c) (mu c) (runs c) (fn_out c) (pw_closed c).
Definition set_ctx (x : sharedContext) (c : call) : call :=
  Call (result c) (err c) (ready c) x (ctxs c) (fn c) (once c)
       (progress_st c) (mu c) (runs c) (fn_out c) (pw_closed c).
Definition set_ctxs (l : list Context) (c : call) : call :=
  Call (result c) (err c) (ready c) (ctx c) l (fn c) (once c)
       (progress_st c) (mu c) (runs c) (fn_out c) (pw_closed c).
Definition set_once (c : call) : call :=
  Call (result c) (err c) (ready c) (ctx c) (ctxs c) (fn c) true
       (progress_st c) (mu c) (S (runs c)) (fn_out c) (pw_closed c).
Definition set_progress_st (ps : progressState) (c : call) : call :=
  Call (result c) (err c) (ready c) (ctx c) (ctxs c) (fn c) (once c)
       ps (mu c) (runs c) (fn_out c) (pw_closed c).
Definition set_mu (b : bool) (c : call) : call :=
  Call (result c) (err c) (ready c) (ctx c) (ctxs c) (fn c) (once c)
       (progress_st c) b (runs c) (fn_out c) (pw_closed c).
Definition set_fn_out (v : value) (e : option error) (c : call) : call :=
  Call (result c) (err c) (ready c) (ctx c) (ctxs c) (fn c) (once c)
       (progress_st c) (mu c) (runs c) (Some (v, e)) (pw_closed c).
Definition set_pw_closed (c : call) : call :=
  Call (result c) (err c) (ready c) (ctx c) (ctxs c) (fn c) (once c)
       (progress_st c) (mu c) (runs c) (fn_out c) true.

(** [newCall] (lines 69-84); the goroutine it starts is a task of the
    system. *)
Definition newCall (f : nat) : call :=
  {| result := None; err := None; ready := false;
     ctx := {| done := false; sc_err := None |};
     ctxs := []; fn := f; once := false;
     progress_st := newProgressState;
     mu := false; runs := 0; fn_out := None; pw_closed := false |}.

(** The loop of [signal] (lines 205-213): [None] when it meets a context
    that has not completed (the [return] of line 211), otherwise the [err]
    it ends with. *)
Fixpoint signal_loop (w : world) (l : list Context) (e : option error)
  : option (option error) :=
  match l with
  | [] => Some e
  | x :: l' => if ctx_Done w x then signal_loop w l' (ctx_Err w x) else None
  end.

(** [sharedContext.signal] (lines 201-217), called with [mu] held. *)
Definition signal (w : world) (c : call) : call :=
  if done (ctx c) then c
  else match signal_loop w (ctxs c) None with
       | Some e => set_ctx {| done := true; sc_err := e |} c
       | None => c
       end.

(** [call.Deadline] (lines 143-157); [None] is [(time.Time{}, false)]. *)
Fixpoint Deadline_loop (w : world) (l : list Context) : option Time :=
  match l with
  | [] => None
  | x :: l' =>
      if ctx_Done w x then Deadline_loop w l'
      else match cdeadline x with
           | Some dl => Some dl
           | None => Deadline_loop w l'
           end
  end.

Definition Deadline (w : world) (c : call) : option Time :=
  Deadline_loop w (ctxs c).

(** [call.append] (lines 126-141), called with [mu] held: the call and the
    calls made on writers.  The watcher goroutine it starts is a task of the
    system. *)
Definition append (c : call) (x : Context) : call * wlog :=
  let '(pw, x') := FromContext x in
  let '(ps, out) :=
    match pw with
    | Some w => add (progress_st c) w
    | None => (progress_st c, [])
    end in
  (set_ctxs (ctxs c ++ [x']) (set_progress_st ps c), out).

(** ** The other queries of the merged context (lines 159-188) *)

(** [call.Done] (lines 159-164): the call after [signal], and whether the
    channel it returns is closed at that moment. *)
Definition Done (w : world) (c : call) : call * bool :=
  let c' := signal w c in (c', done (ctx c')).

(** [call.Err] (lines 166-173): [c.ctx.Done()] is [call.Done], so the call
    is evaluated first. *)
Definition Err (w : world) (c : call) : call * option error :=
  let '(c', closed) := Done w c in
  (c', if closed then sc_err (ctx c') else None).

Section Value.

(** The keys of context values, and [ctx.Value(key)] of a caller's context:
    both belong to the callers. *)
Context {K : Type} (ctx_Value : Context → K → value).

(** The loop of [call.Value] (lines 178-186). *)
Fixpoint Value_loop (w : world) (l : list Context) (key : K) : value :=
  match l with
  | [] => None
  | x :: l' =>
      if ctx_Done w x then Value_loop w l' key
      else match ctx_Value x key with
           | Some v => Some v
           | None => Value_loop w l' key
           end
  end.

(** [call.Value] (lines 175-188). *)
Definition Value (w : world) (c : call) (key : K) : value :=
  Value_loop w (ctxs c) key.

End Value.

(** ** Goroutines *)

(** The two places where [Group.Do] calls [c.wait]: line 33, whose result is
    tested against [errRetry], and line 51, whose result is returned as it
    is. *)
Inductive site := Line33 | Line51.

(** A goroutine and the point it has reached.  [c] is the address of a call
    in the heap.  A caller inside [c.wait] carries the frame of [Group.Do] it
    will return to: the arguments of [Do] and the site of the call.

    - [TDo]: a caller at the entry of [Group.Do] (line 26).
    - [TWait]: about to enter [c.wait] from the given site (line 97).
    - [TAppend]: inside the critical section of [c.wait], past the test of
      [c.ready], holding [c.mu] (line 105).
    - [TSelect]: suspended at the outer [select] of line 110.
    - [TInner]: took [<-ctx.Done()], at the inner [select] of line 112.
    - [TAwait]: blocked on [<-c.ready] at line 116.
    - [TReturned]: [Group.Do] has returned these values to its caller.
    - [TCleanup]: the goroutine of lines 43-49, blocked on [<-c.ready].
    - [TOnce]: a goroutine of line 108, before [c.once.Do].
    - [TFn]: inside [c.run], the work function is executing (line 88).
    - [TStore]: the work function has returned, before line 89.
    - [TClose]: before [close(c.ready)] (line 93).
    - [TDefer]: before the deferred [c.closeProgressWriter()] (line 87).
    - [TWatch]: the watcher goroutine of lines 132-140.
    - [TProgress]: [c.progressState.run] (line 81), at [pr.Read].
    - [TExit]: a goroutine that has ended. *)
Inductive task :=
  | TDo (x : Context) (key : string) (f : nat)
  | TWait (c : nat) (x : Context) (key : string) (f : nat) (from : site)
  | TAppend (c : nat) (x : Context) (key : string) (f : nat) (from : site)
  | TSelect (c : nat) (x : Context) (key : string) (f : nat) (from : site)
  | TInner (c : nat) (x : Context) (key : string) (f : nat) (from : site)
  | TAwait (c : nat) (x : Context) (key : string) (f : nat) (from : site)
  | TReturned (v : value) (e : option error)
  | TCleanup (c : nat) (key : string)
  | TOnce (c : nat)
  | TFn (c : nat)
  | TStore (c : nat) (v : value) (e : option error)
  | TClose (c : nat)
  | TDefer (c : nat)
  | TWatch (c : nat) (x : Context)
  | TProgress (c : nat)
  | TExit.

(** The whole system: the map of the [Group] ([g.m]; a [nil] map and an empty
    one look up alike, so the lazy [make] of lines 27-29 is the empty map),
    the allocated calls, the completed contexts, the goroutines and the calls
    made on progress writers so far. *)
Record state := State {
  g_m : gmap string nat;
  heap : list call;
  cworld : world;
  tasks : list task;
  log : wlog
}.

Definition init : state := State ∅ [] ∅ [] [].

Definition upd_task (i : nat) (t : task) (s : state) : state :=
  State (g_m s) (heap s) (cworld s) (<[i:=t]> (tasks s)) (log s).
Definition spawn (ts : list task) (s : state) : state :=
  State (g_m s) (heap s) (cworld s) (tasks s ++ ts) (log s).
Definition upd_call (c : nat) (cl : call) (s : state) : state :=
  State (g_m s) (<[c:=cl]> (heap s)) (cworld s) (tasks s) (log s).
Definition emit (out : wlog) (s : state) : state :=
  State (g_m s) (heap s) (cworld s) (tasks s) (log s ++ out).
Definition set_g_m (m : gmap string nat) (s : state) : state :=
  State m (heap s) (cworld s) (tasks s) (log s).
Definition alloc (cl : call) (s : state) : state :=
  State (g_m s) (heap s ++ [cl]) (cworld s) (tasks s) (log s).
Definition complete (id : nat) (e : error) (s : state) : state :=
  State (g_m s) (heap s) (<[id:=e]> (cworld s)) (tasks s) (log s).

(** What drives one step: the environment (a new caller, a context that
    completes), or task [i] taking its next action.  Where the action is not
    determined by the state, the label says which it is: the case of the
    outer [select], what the work function does, what [pr.Read] returns. *)
Inductive label :=
  | LSpawn (x : Context) (key : string) (f : nat)
  | LCancel (id : nat) (e : error)
  | LStep (i : nat)
  | LSelectCtx (i : nat)
  | LSelectReady (i : nat)
  | LFnDone (i : nat)
  | LFnReturn (i : nat) (v : value) (e : option error)
  | LRead (i : nat) (r : read_result).

(** What [Group.Do] does with the pair that [c.wait] returned through its
    [select].  At line 33 the error is tested against [errRetry] (line 34) and
    [Do] is called again with the same arguments (line 36;
    [runtime.Gosched] changes no state); otherwise, and always at line 51, the
    pair is returned to the caller of [Do]. *)
Definition Do_return (x : Context) (key : string) (f : nat) (from : site)
    (v : value) (e : option error) : task :=
  match from with
  | Line33 => if decide (e = Some errRetry) then TDo x key f else TReturned v e
  | Line51 => TReturned v e
  end.

(** The actions that the state determines.  [None]: the task is blocked (on
    a mutex or a channel) or has no such action. *)
Definition step_task (i : nat) (t : task) (s : state) : option state :=
  match t with
  | TDo x key f =>
      (* lines 26-50, under g.mu *)
      match g_m s !! key with
      | Some c => Some (upd_task i (TWait c x key f Line33) s)
      | None =>
          let c := length (heap s) in
          Some (spawn [TProgress c; TCleanup c key]
                  (upd_task i (TWait c x key f Line51)
                     (set_g_m (<[key:=c]> (g_m s)) (alloc (newCall f) s))))
      end
  | TWait c x key f from =>
      (* lines 97-104: wait returns (nil, errRetry), which line 34 answers by
         calling Do again and line 51 returns *)
      cl ← heap s !! c;
      if mu cl then None
      else if ready cl then
        Some (upd_task i
                (match from with
                 | Line33 => TDo x key f
                 | Line51 => TReturned None (Some errRetry)
                 end) s)
      else Some (upd_task i (TAppend c x key f from)
                   (upd_call c (set_mu true cl) s))
  | TAppend c x key f from =>
      (* lines 105-108 *)
      cl ← heap s !! c;
      let '(cl', out) := append cl x in
      Some (spawn [TWatch c x; TOnce c]
              (upd_task i (TSelect c x key f from)
                 (emit out (upd_call c (set_mu false cl') s))))
  | TInner c x key f from =>
      (* lines 112-120; c.ctx.Done() is call.Done (lines 159-164) *)
      cl ← heap s !! c;
      if mu cl then None
      else
        let cl' := signal (cworld s) cl in
        Some (upd_task i
                (if done (ctx cl') then TAwait c x key f from
                 else Do_return x key f from None (ctx_Err (cworld s) x))
                (upd_call c cl' s))
  | TAwait c x key f from =>
      (* lines 116-117 *)
      cl ← heap s !! c;
      if ready cl
      then Some (upd_task i (Do_return x key f from (result cl) (err cl)) s)
      else None
  | TCleanup c key =>
      (* lines 45-48 *)
      cl ← heap s !! c;
      if ready cl then Some (upd_task i TExit (set_g_m (delete key (g_m s)) s))
      else None
  | TOnce c =>
      (* c.once.Do(c.run) *)
      cl ← heap s !! c;
      if once cl then Some (upd_task i TExit s)
      else Some (upd_task i (TFn c) (upd_call c (set_once cl) s))
  | TStore c v e =>
      (* lines 89-92 *)
      cl ← heap s !! c;
      if mu cl then None
      else Some (upd_task i (TClose c) (upd_call c (set_result v e cl) s))
  | TClose c =>
      (* line 93 *)
      cl ← heap s !! c;
      Some (upd_task i (TDefer c) (upd_call c (set_ready cl) s))
  | TDefer c =>
      (* line 87 *)
      cl ← heap s !! c;
      Some (upd_task i TExit (upd_call c (set_pw_closed cl) s))
  | TWatch c x =>
      (* lines 133-139 *)
      cl ← heap s !! c;
      if done (ctx cl) then Some (upd_task i TExit s)
      else if ctx_Done (cworld s) x then
        if mu cl then None
        else Some (upd_task i TExit (upd_call c (signal (cworld s) cl) s))
      else None
  | TSelect _ _ _ _ _ | TFn _ | TProgress _ | TReturned _ _ | TExit => None
  end.

(** One step of the system. *)
Definition step (l : label) (s : state) : option state :=
  match l with
  | LSpawn x key f => Some (spawn [TDo x key f] s)
  | LCancel id e =>
      (* a context completes once, with the error its Err() reports *)
      if decide (cworld s !! id = None)
      then Some (complete id e s) else None
  | LStep i => t ← tasks s !! i; step_task i t s
  | LSelectCtx i =>
      (* line 111 *)
      match tasks s !! i with
      | Some (TSelect c x key f from) =>
          if ctx_Done (cworld s) x
          then Some (upd_task i (TInner c x key f from) s)
          else None
      | _ => None
      end
  | LSelectReady i =>
      (* lines 121-122 *)
      match tasks s !! i with
      | Some (TSelect c x key f from) =>
          cl ← heap s !! c;
          if ready cl
          then Some (upd_task i (Do_return x key f from (result cl) (err cl)) s)
          else None
      | _ => None
      end
  | LFnDone i =>
      (* the work function calls Done() on its context (lines 159-164) *)
      match tasks s !! i with
      | Some (TFn c) =>
          cl ← heap s !! c;
          if mu cl then None
          else Some (upd_call c (signal (cworld s) cl) s)
      | _ => None
      end
  | LFnReturn i v e =>
      (* line 88: the work function returns, with any pair *)
      match tasks s !! i with
      | Some (TFn c) =>
          cl ← heap s !! c;
          Some (upd_task i (TStore c v e) (upd_call c (set_fn_out v e cl) s))
      | _ => None
      end
  | LRead i r =>
      (* lines 239-258; the producer side is closed only by line 87 *)
      match tasks s !! i with
      | Some (TProgress c) =>
          cl ← heap s !! c;
          if match r with ReadEOF => negb (pw_closed cl) | _ => false end
          then None
          else
            let '(ps, out, continue) := run_iter (progress_st cl) r in
            Some (upd_task i (if continue then TProgress c else TExit)
                    (emit out (upd_call c (set_progress_st ps cl) s)))
      | _ => None
      end
  end.

(** Running an interleaving. *)
Fixpoint exec (tr : list label) (s : state) : option state :=
  match tr with
  | [] => Some s
  | l :: tr' => s' ← step l s; exec tr' s'
  end.

(** * Predicates, instances and tactics used below *)

(** ** The invariant of the system *)

(** The call a task is executing [run] for. *)
Definition runner (t : task) : option nat :=
  match t with
  | TFn c | TStore c _ _ | TClose c => Some c
  | _ => None
  end.

(** What a task's program point says about the heap. *)
Definition task_ok (h : list call) (t : task) : Prop :=
  match t with
  | TFn c =>
      ∃ cl, h !! c = Some cl ∧ once cl = true ∧ ready cl = false ∧
            fn_out cl = None
  | TStore c v e =>
      ∃ cl, h !! c = Some cl ∧ once cl = true ∧ ready cl = false ∧
            fn_out cl = Some (v, e)
  | TClose c =>
      ∃ cl, h !! c = Some cl ∧ once cl = true ∧ ready cl = false ∧
            fn_out cl = Some (result cl, err cl)
  | TAwait c _ _ _ _ => ∃ cl, h !! c = Some cl ∧ done (ctx cl) = true
  | _ => True
  end.

(** What holds of every call: the counter of entries into [run] follows the
    guard; nothing has run before the guard is claimed; once [ready] is
    closed the stored result is what the work function returned. *)
Definition call_ok (cl : call) : Prop :=
  runs cl = (if once cl then 1 else 0) ∧
  (once cl = false → ready cl = false ∧ fn_out cl = None) ∧
  (ready cl = true → fn_out cl = Some (result cl, err cl)).

(** The invariant: every call is [call_ok], every task is [task_ok], and at
    most one task executes [run] for a given call. *)
Record inv (s : state) : Prop := Inv {
  inv_calls : ∀ c cl, heap s !! c = Some cl → call_ok cl;
  inv_tasks : ∀ i t, tasks s !! i = Some t → task_ok (heap s) t;
  inv_runner : ∀ i j ti tj c,
    tasks s !! i = Some ti → tasks s !! j = Some tj →
    runner ti = Some c → runner tj = Some c → i = j
}.

(** The fields of a call that [task_ok] and [call_ok] read are unchanged, and
    a completed merged context stays completed. *)
Definition same_run (cl cl' : call) : Prop :=
  once cl' = once cl ∧ ready cl' = ready cl ∧ fn_out cl' = fn_out cl ∧
  result cl' = result cl ∧ err cl' = err cl ∧ runs cl' = runs cl ∧
  (done (ctx cl) = true → done (ctx cl') = true).

(** Once [ready] is closed the stored result does not change; what the work
    function returned does not change; a completed merged context does not
    change. *)
Definition frozen (cl cl' : call) : Prop :=
  (ready cl = true →
   ready cl' = true ∧ result cl' = result cl ∧ err cl' = err cl) ∧
  (∀ p, fn_out cl = Some p → fn_out cl' = Some p) ∧
  (done (ctx cl) = true → ctx cl' = ctx cl).

(** A task at the inner [select] took [<-ctx.Done()]: its context has
    completed, and completed contexts stay so. *)
Definition inner_completed (s : state) : Prop :=
  ∀ i c x key f from, tasks s !! i = Some (TInner c x key f from) →
    is_Some (cworld s !! cid x).


(** Every buffered progress item is stored under its own identifier. *)
Definition keyed (ps : progressState) : Prop :=
  ∀ id p, items ps !! id = Some p → ID p = id.

(** The calls of a log that were made on writer [pw]. *)
Definition calls_on (pw : Writer) (out : list (Writer * wcall))
  : list (Writer * wcall) :=
  filter (λ e, e.1 = pw) out.

(** ** Vocabulary of the statements *)

(** The task a label moves. *)
Definition actor (l : label) : option nat :=
  match l with
  | LSpawn _ _ _ | LCancel _ _ => None
  | LStep i | LSelectCtx i | LSelectReady i | LFnDone i
  | LFnReturn i _ _ | LRead i _ => Some i
  end.

(** The context [x] has completed in [w]. *)
Definition completed (w : world) (x : Context) : Prop := is_Some (w !! cid x).

(** The registered contexts of a call that have not completed. *)
Definition active (w : world) (cl : call) : list Context :=
  filter (λ x, w !! cid x = None) (ctxs cl).

(** The error of the context registered last, or [e0] if there is none. *)
Definition last_err (w : world) (l : list Context) (e0 : option error)
  : option error :=
  match last l with
  | Some x => ctx_Err w x
  | None => e0
  end.

(** The call whose merged context a step evaluates with [signal]: the
    watcher of a waiter whose context has completed, the inner [select] of
    [wait], or the work function calling [Done]. *)
Definition evaluates_signal (l : label) (s : state) : option nat :=
  match l with
  | LStep i =>
      match tasks s !! i with
      | Some (TWatch c _) | Some (TInner c _ _ _ _) => Some c
      | _ => None
      end
  | LFnDone i =>
      match tasks s !! i with
      | Some (TFn c) => Some c
      | _ => None
      end
  | _ => None
  end.

(** [Do], called with these arguments and having called [wait] at this site,
    hands the pair to its caller: at line 33 only a pair whose error is not
    [errRetry]. *)
Definition handed_on (from : site) (e : option error) : Prop :=
  from = Line33 → e ≠ Some errRetry.

(** The three ways a caller gets its result: the test of [c.ready] at the
    entry of [wait] called from line 51; [c.ready] at the outer [select] or
    at line 116; the [default] of the inner [select]. *)
Inductive returns_by (s : state) (t : task) (v : value) (e : option error)
  : Prop :=
  | by_retry c x key f cl :
      t = TWait c x key f Line51 → heap s !! c = Some cl →
      ready cl = true → v = None → e = Some errRetry → returns_by s t v e
  | by_ready c x key f from cl :
      t = TSelect c x key f from ∨ t = TAwait c x key f from →
      heap s !! c = Some cl →
      ready cl = true → v = result cl → e = err cl → handed_on from e →
      returns_by s t v e
  | by_default c x key f from cl :
      t = TInner c x key f from → heap s !! c = Some cl → mu cl = false →
      done (ctx (signal (cworld s) cl)) = false →
      v = None → e = ctx_Err (cworld s) x → handed_on from e →
      returns_by s t v e.

(** The result a caller holds is the one the work function returned, and the
    call has finished. *)
Definition real_result (cl : call) (v : value) (e : option error) : Prop :=
  ready cl = true ∧ fn_out cl = Some (v, e) ∧ result cl = v ∧ err cl = e.



(** In the step [l] from [s] to [s'] the call of [wait] by caller [i] on call
    [c] returns by [return c.result, c.err], at line 122 (from the outer
    [select]) or at line 117, to the frame of [Do] that called it; the call
    has finished and the pair [(v, e)] it returns is the one the work
    function returned. *)
Definition wait_returns_real (l : label) (s s' : state) (i c : nat)
    (x : Context) (key : string) (f : nat) (from : site)
    (v : value) (e : option error) : Prop :=
  ((l = LSelectReady i ∧ tasks s !! i = Some (TSelect c x key f from)) ∨
   (l = LStep i ∧ tasks s !! i = Some (TAwait c x key f from))) ∧
  (∃ cl, heap s !! c = Some cl ∧ real_result cl v e) ∧
  tasks s' !! i = Some (Do_return x key f from v e).

(** The earlier of two optional deadlines. *)
Definition earlier (a b : option Time) : option Time :=
  match a, b with
  | Some x, Some y => Some (Z.min x y)
  | Some x, None => Some x
  | None, _ => b
  end.

(** The deadline in the words of the specification: "the earliest deadline
    among currently-active waiters (ignoring waiters already completed)". *)
Definition Deadline_earliest (w : world) (c : call) : option Time :=
  foldr (λ x acc, if ctx_Done w x then acc else earlier (cdeadline x) acc)
        None (ctxs c).

(** ** Concrete interleavings, used as instances and counterexamples *)

(** Three callers' contexts, without deadline or progress writer. *)
Definition ctxA : Context := {| cid := 0; cdeadline := None; cwriter := None |}.
Definition ctxB : Context := {| cid := 1; cdeadline := None; cwriter := None |}.
Definition ctxC : Context := {| cid := 2; cdeadline := None; cwriter := None |}.

(** Two contexts with deadlines, the later one registered first. *)
Definition ctxLate : Context :=
  {| cid := 0; cdeadline := Some 10%Z; cwriter := None |}.
Definition ctxSoon : Context :=
  {| cid := 1; cdeadline := Some 5%Z; cwriter := None |}.

(** A progress item, a writer of each kind, and contexts carrying them. *)
Definition item1 : Progress := {| ID := "a"; Timestamp := 3%Z |}.
Definition rawWriter : Writer := {| wid := 1; raw := true |}.
Definition plainWriter : Writer := {| wid := 2; raw := false |}.
Definition ctxRaw : Context :=
  {| cid := 1; cdeadline := None; cwriter := Some rawWriter |}.
Definition ctxPlain : Context :=
  {| cid := 1; cdeadline := None; cwriter := Some plainWriter |}.

(** Two callers of [Do] with key "k": the first creates the call, both
    join it, and the guard is triggered once.  Tasks: 0 and 1 are the callers,
    2 the progress reader, 3 the cleanup, 4 and 6 the watchers, 5 and 7 the
    goroutines of line 108. *)
Definition two_joined : list label :=
  [LSpawn ctxA "k" 0; LSpawn ctxB "k" 0;
   LStep 0; LStep 1;          (* Do: create, find *)
   LStep 0; LStep 0;          (* wait of the first caller, up to the select *)
   LStep 1; LStep 1;          (* wait of the second caller *)
   LStep 5].                  (* the first trigger enters run *)

(** The states the instances below start from, computed once. *)
Definition two_joined_state : state :=
  Eval vm_compute in default init (exec two_joined init).

(** The second caller's context completes, then the first one's, and the
    watcher of the first (task 4) evaluates the merged context. *)
Definition both_cancelled : list label :=
  two_joined ++ [LCancel 1 Canceled; LStep 6; LCancel 0 DeadlineExceeded].

(** Before and after the step in which the signal fires. *)
Definition both_cancelled_state : state :=
  Eval vm_compute in default init (exec both_cancelled init).

(** The state in which the signal has fired. *)
Definition fired_state : state :=
  Eval vm_compute in default init (step (LStep 4) both_cancelled_state).

(** Both callers suspended, the call finished with [(7, nil)]. *)
Definition finished_state : state :=
  Eval vm_compute in
    default init
      (exec (two_joined ++ [LFnReturn 5 (Some 7) None; LStep 5; LStep 5])
         init).




(** Three callers.  The first creates the call, joins it and starts the work
    function; its context completes and its watcher completes the merged
    context.  The call has not finished, so the second and third callers
    still join it.  Then the second caller's context completes.  Tasks: 0, 1,
    2 the callers, 3 the progress reader, 4 the cleanup, 5, 7, 9 the
    watchers, 6 the runner, 8 and 10 the other goroutines of line 108. *)
Definition late_joiners : list label :=
  [LSpawn ctxA "k" 0; LSpawn ctxB "k" 0; LSpawn ctxC "k" 0;
   LStep 0; LStep 0; LStep 0; LStep 6;
   LCancel 0 Canceled; LStep 5;
   LStep 1; LStep 1; LStep 1;
   LStep 2; LStep 2; LStep 2;
   LCancel 1 Canceled].

(** Two waiters; the first one's context completes and it takes
    [<-ctx.Done()]. *)
Definition one_leaves : list label :=
  two_joined ++ [LCancel 0 Canceled; LSelectCtx 0].

(** The leaving waiter at the inner [select]. *)
Definition one_leaves_state : state :=
  Eval vm_compute in default init (exec one_leaves init).

(** The caller that creates the call is overtaken between lines 50 and 51:
    a second caller finds the call, joins it and triggers the work function,
    which returns; [c.ready] is closed before the first caller enters
    [c.wait].  Tasks: 0 and 1 the callers, 2 the progress reader, 3 the
    cleanup, 4 the watcher, 5 the runner. *)
Definition creator_overtaken : list label :=
  [LSpawn ctxA "k" 0; LSpawn ctxB "k" 0;
   LStep 0;                       (* lines 26-50: create, unlock *)
   LStep 1; LStep 1; LStep 1;     (* the second caller joins *)
   LStep 5;                       (* once.Do enters run *)
   LFnReturn 5 (Some 7) None; LStep 5; LStep 5;
   LStep 0].                      (* line 51: c.wait sees c.ready closed *)

(** The second caller passes the test of [c.ready] at the entry of [wait]
    just before the runner closes [c.ready]; the producer side is then
    closed and the multiplexer sees the end of the stream before the caller
    reaches [append].  Tasks: 0 and 1 the callers, 2 the progress reader,
    3 the cleanup, 4 the watcher, 5 the runner. *)
Definition subscribe_after_done (x : Context) : list label :=
  [LSpawn ctxA "k" 0; LSpawn x "k" 0;
   LStep 0; LStep 0; LStep 0; LStep 5;
   LRead 2 (ReadBatch [item1]);
   LFnReturn 5 (Some 7) None; LStep 5;
   LStep 1; LStep 1;              (* Do finds the call; wait tests c.ready *)
   LStep 5; LStep 5;              (* close(c.ready); closeProgressWriter() *)
   LRead 2 ReadEOF].

(** A multiplexer that is done and holds one item. *)
Definition done_with_item : progressState :=
  {| items := {[ "a" := item1 ]}; writers := []; ps_done := true |}.

(** A caller whose writer does not implement the raw interface, up to the
    critical section of [wait]. *)
Definition plain_joins : list label :=
  [LSpawn ctxPlain "k" 0; LStep 0; LStep 0].

(** That caller about to execute [append]. *)
Definition plain_joins_state : state :=
  Eval vm_compute in default init (exec plain_joins init).


(** A second item with the identifier of [item1], and a later one. *)
Definition item1b : Progress := {| ID := "a"; Timestamp := 9%Z |}.
Definition item2 : Progress := {| ID := "b"; Timestamp := 5%Z |}.

(** One caller with a raw writer joins, the work function starts, and the
    multiplexer reads a batch in which one identifier occurs twice.  Tasks:
    0 the caller, 1 the progress reader, 2 the cleanup, 3 the watcher, 4 the
    runner. *)
Definition progress_flows : list label :=
  [LSpawn ctxRaw "k" 0; LStep 0; LStep 0; LStep 0; LStep 4;
   LRead 1 (ReadBatch [item1; item2; item1b])].

(** The state after [progress_flows]. *)
Definition progress_flows_state : state :=
  Eval vm_compute in default init (exec progress_flows init).

(** What a task's program point says about registration: a waiter past
    [append], and its watcher, have their context in [c.ctxs]; [run] and the
    goroutines of line 108 exist only for a call with a registered context;
    the deferred call of line 87 is reached with [c.ready] closed; every task
    names an allocated call. *)
Definition task_reg (h : list call) (t : task) : Prop :=
  match t with
  | TSelect c x _ _ _ | TInner c x _ _ _ | TAwait c x _ _ _ | TWatch c x =>
      ∃ cl, h !! c = Some cl ∧ x ∈ ctxs cl
  | TOnce c | TFn c | TStore c _ _ | TClose c =>
      ∃ cl, h !! c = Some cl ∧ ctxs cl ≠ []
  | TDefer c => ∃ cl, h !! c = Some cl ∧ ready cl = true
  | TWait c _ _ _ _ | TAppend c _ _ _ _ | TCleanup c _ | TProgress c =>
      is_Some (h !! c)
  | TDo _ _ _ | TReturned _ _ | TExit => True
  end.

(** What holds of a call in a world: the work function has started only with
    a registered context; a completed merged context carries the completion
    error of a registered context; the producer side of the progress stream
    is closed only after [c.ready], and the multiplexer is done only after
    that. *)
Definition call_wf (w : world) (cl : call) : Prop :=
  (once cl = true → ctxs cl ≠ []) ∧
  (done (ctx cl) = true →
   ∃ x e, x ∈ ctxs cl ∧ sc_err (ctx cl) = Some e ∧ w !! cid x = Some e) ∧
  (pw_closed cl = true → ready cl = true) ∧
  (ps_done (progress_st cl) = true → pw_closed cl = true).

(** Well-formedness of the system: tasks, calls and the map of the group. *)
Record wf (s : state) : Prop := Wf {
  wf_tasks : ∀ i t, tasks s !! i = Some t → task_reg (heap s) t;
  wf_calls : ∀ c cl, heap s !! c = Some cl → call_wf (cworld s) cl;
  wf_map : ∀ key c, g_m s !! key = Some c → is_Some (heap s !! c)
}.

(** The list of waiters only grows, at its end. *)
Definition grows (cl cl' : call) : Prop := ctxs cl `prefix_of` ctxs cl'.

(** The map of the group and the cleanup goroutines of lines 43-49: an entry
    of the map has its cleanup pending; a pending cleanup has its entry;
    no two pending cleanups share a call or a key; a call that has not
    finished has its cleanup pending. *)
Record group_ok (s : state) : Prop := GroupOk {
  g_cleanup : ∀ key c, g_m s !! key = Some c →
    ∃ i, tasks s !! i = Some (TCleanup c key);
  g_entry : ∀ i c key, tasks s !! i = Some (TCleanup c key) →
    g_m s !! key = Some c;
  g_uniq : ∀ i j c c' key key',
    tasks s !! i = Some (TCleanup c key) →
    tasks s !! j = Some (TCleanup c' key') →
    c = c' ∨ key = key' → i = j;
  g_alive : ∀ c cl, heap s !! c = Some cl → ready cl = false →
    ∃ i key, tasks s !! i = Some (TCleanup c key)
}.

(** [one_leaves] after the leaver has returned. *)
Definition one_left_state : state :=
  Eval vm_compute in default init (step (LStep 0) one_leaves_state).

(** What follows [finished_state]: both callers return and the runner
    closes the producer side of the progress stream. *)
Definition both_return : list label :=
  [LSelectReady 0; LSelectReady 1; LStep 5].

(** The state after [both_return]. *)
Definition both_returned_state : state :=
  Eval vm_compute in default init (exec both_return finished_state).

(** The first nine steps of [late_joiners], up to the completion of the
    merged context, and the rest. *)
Definition merged_done_state : state :=
  Eval vm_compute in default init (exec (take 9 late_joiners) init).

(** The state after [late_joiners]. *)
Definition late_joiners_state : state :=
  Eval vm_compute in default init (exec late_joiners init).

(** The state after [subscribe_after_done] with a raw writer. *)
Definition subscribed_late_state : state :=
  Eval vm_compute in default init (exec (subscribe_after_done ctxRaw) init).

(** [creator_overtaken] up to the moment the call is finished and the
    creator is back at the entry of [Do]: here the second caller has not yet
    returned, the entry of the call is still in the map, and a third caller
    arrives with the same key. *)
Definition stale_entry : list label :=
  [LSpawn ctxA "k" 0; LSpawn ctxB "k" 0;
   LStep 0; LStep 1; LStep 1; LStep 1; LStep 5;
   LFnReturn 5 (Some 7) None; LStep 5; LStep 5;
   LSpawn ctxC "k" 0].

(** The state after [stale_entry].  Tasks: 3 is the cleanup, 6 the third
    caller. *)
Definition stale_entry_state : state :=
  Eval vm_compute in default init (exec stale_entry init).

(** The mutex of a call: it is held exactly while one caller is between the
    test of [c.ready] and the end of [append]. *)
Record lock_ok (s : state) : Prop := LockOk {
  l_held : ∀ c cl, heap s !! c = Some cl → mu cl = true →
    ∃ i x key f from, tasks s !! i = Some (TAppend c x key f from);
  l_holder : ∀ i c x key f from,
    tasks s !! i = Some (TAppend c x key f from) →
    ∃ cl, heap s !! c = Some cl ∧ mu cl = true;
  l_uniq : ∀ i j c x y key f from key' f' from',
    tasks s !! i = Some (TAppend c x key f from) →
    tasks s !! j = Some (TAppend c y key' f' from') →
    i = j
}.

(** The progress reader of a call: there is at most one, and while it runs
    the multiplexer is not done. *)
Record reader_ok (s : state) : Prop := ReaderOk {
  r_uniq : ∀ i j c,
    tasks s !! i = Some (TProgress c) → tasks s !! j = Some (TProgress c) →
    i = j;
  r_live : ∀ i c, tasks s !! i = Some (TProgress c) →
    ∃ cl, heap s !! c = Some cl ∧ ps_done (progress_st cl) = false
}.

(** The multiplexer of call [c] has stopped without being done: no reader
    is left and the done flag is not set. *)
Definition reader_lost (s : state) (c : nat) : Prop :=
  (∀ i, tasks s !! i ≠ Some (TProgress c)) ∧
  ∃ cl, heap s !! c = Some cl ∧ ps_done (progress_st cl) = false.

(** [progress_flows] after [pr.Read] has failed with another error than
    [io.EOF]. *)
Definition read_failed_state : state :=
  Eval vm_compute in
    default init (step (LRead 1 ReadErr) progress_flows_state).

(** The call then finishes and the caller returns. *)
Definition after_read_failed : list label :=
  [LFnReturn 4 (Some 7) None; LStep 4; LStep 4; LStep 4; LSelectReady 0].

(** The state after [after_read_failed]. *)
Definition after_read_failed_state : state :=
  Eval vm_compute in default init (exec after_read_failed read_failed_state).



(** [two_joined], then the work function returns [(7, errRetry)] and the call
    finishes. *)
Definition retry_from_fn : list label :=
  two_joined ++ [LFnReturn 5 (Some 7) (Some errRetry); LStep 5; LStep 5].

(** After both callers of [retry_from_fn] have resumed: the cleanup removes
    the entry, the second caller enters [Do] again and creates a second call
    (tasks 8 and 9 its progress reader and cleanup, 10 its watcher, 11 its
    runner), whose work function returns [(8, nil)]. *)
Definition retry_second_run : list label :=
  [LStep 3; LStep 1; LStep 1; LStep 1; LStep 11;
   LFnReturn 11 (Some 8) None; LStep 11; LStep 11; LSelectReady 1].

(** ** Tactics *)

(** Case analysis on a step that succeeded: one goal per atomic action. *)
Ltac step_cases H :=
  unfold step, step_task in H;
  repeat first
    [ progress simplify_option_eq
    | match type of H with
      | context [match ?x with _ => _ end] => destruct x eqn:?
      end ].

(** Splitting a lookup in an updated list of tasks or calls. *)
Ltac split_lookups :=
  repeat match goal with
  | H : <[_:=_]> _ !! _ = Some _ |- _ =>
      apply list_lookup_insert_Some in H as [(-> & <- & ?)|[? H]]
  | H : (_ ++ _) !! _ = Some _ |- _ =>
      apply lookup_app_Some in H as [H|[? H]]
  | H : (_ :: _) !! ?k = Some _ |- _ =>
      let E := fresh "E" in destruct k eqn:E; simplify_eq/=
  | H : [] !! _ = Some _ |- _ => by rewrite lookup_nil in H
  end.

(** The same, when the task looked up is a constructor. *)
Ltac split_task_lookups :=
  repeat match goal with
  | H : <[_:=_]> _ !! _ = Some _ |- _ =>
      apply list_lookup_insert_Some in H as [(-> & ? & ?)|[? H]]
  | H : (_ ++ _) !! _ = Some _ |- _ =>
      apply lookup_app_Some in H as [H|[? H]]
  | H : (_ :: _) !! ?k = Some _ |- _ =>
      let E := fresh "E" in destruct k eqn:E; simplify_eq/=
  | H : [] !! _ = Some _ |- _ => by rewrite lookup_nil in H
  end.

(** What the invariant says about the task that moves. *)
Ltac use_task_ok Htasks :=
  match goal with
  | Ht : tasks _ !! _ = Some ?t |- _ =>
      lazymatch t with
      | TFn _ => idtac | TStore _ _ _ => idtac | TClose _ => idtac
      | TAwait _ _ _ _ _ => idtac
      end;
      let Hok := fresh "Hok" in
      pose proof (Htasks _ _ Ht) as Hok; simpl in Hok;
      destruct Hok as (? & ? & Hok); simplify_eq
  end.

(** The two answers of [Group.Do] to what [wait] returned. *)
Ltac Do_cases :=
  unfold Do_return in *; repeat case_match; simplify_eq/=.

(** A task other than the one that moves is found again after the step. *)
Ltac keep_task i' :=
  exists i'; simpl;
  rewrite ?lookup_app_l by (rewrite ?length_insert; eauto using lookup_lt_Some);
  rewrite ?list_lookup_insert_ne by congruence; done.

(** * Properties of the system *)

(** ** Sorting by timestamp *)

#[global] Instance not_after_total : Total not_after.
Proof. intros p q. unfold not_after. lia. Qed.

(** ** The invariant is kept by every step *)

Lemma same_run_refl cl : same_run cl cl.
Proof. by repeat split. Qed.

Lemma signal_done_mono w cl :
  done (ctx cl) = true → signal w cl = cl.
Proof. unfold signal. by intros ->. Qed.

Lemma same_run_signal w cl : same_run cl (signal w cl).
Proof.
  unfold signal. destruct (done (ctx cl)) eqn:E; [by apply same_run_refl|].
  destruct (signal_loop _ _ _); repeat split; simpl; congruence.
Qed.

Lemma same_run_append cl x b : same_run cl (set_mu b (append cl x).1).
Proof.
  unfold append. simpl. destruct (cwriter x) as [w|]; simpl.
  - destruct (add (progress_st cl) w); by repeat split.
  - by repeat split.
Qed.

Lemma call_ok_same_run cl cl' : same_run cl cl' → call_ok cl → call_ok cl'.
Proof.
  intros (Ho & Hr & Hf & Hv & He & Hn & _) (H1 & H2 & H3).
  unfold call_ok. rewrite Ho, Hr, Hf, Hv, He, Hn. done.
Qed.

Lemma same_run_set_mu b cl : same_run cl (set_mu b cl).
Proof. by repeat split. Qed.

Lemma same_run_set_progress_st ps cl : same_run cl (set_progress_st ps cl).
Proof. by repeat split. Qed.

Lemma same_run_set_pw_closed cl : same_run cl (set_pw_closed cl).
Proof. by repeat split. Qed.

Create HintDb flight discriminated.
#[local] Hint Resolve same_run_refl same_run_signal same_run_append
  same_run_set_mu same_run_set_progress_st same_run_set_pw_closed
  call_ok_same_run : flight.

Lemma call_ok_newCall f : call_ok (newCall f).
Proof. by repeat split. Qed.

Lemma task_ok_same_run h c cl cl' t :
  h !! c = Some cl → same_run cl cl' → task_ok h t → task_ok (<[c:=cl']> h) t.
Proof.
  intros Hc (Ho & Hr & Hf & Hv & He & Hn & Hd) Ht.
  assert (c < length h) by eauto using lookup_lt_Some.
  destruct t; simpl in *; try done.
  all: destruct Ht as (cl0 & Hc0 & Ht).
  all: destruct (decide (c0 = c)) as [->|];
    [ exists cl'; rewrite list_lookup_insert_eq by done; simplify_eq;
      rewrite ?Ho, ?Hr, ?Hf, ?Hv, ?He; auto
    | exists cl0; by rewrite list_lookup_insert_ne by done ].
Qed.

Lemma task_ok_alloc h cl t : task_ok h t → task_ok (h ++ [cl]) t.
Proof.
  destruct t; simpl; try done.
  all: intros (cl0 & Hc0 & Ht); exists cl0; split; [|done].
  all: by apply lookup_app_l_Some.
Qed.

Lemma append_fst_eq cl x c1 w :
  append cl x = (c1, w) → c1 = (append cl x).1.
Proof. by intros ->. Qed.

Lemma step_calls_ok l s s' :
  step l s = Some s' → inv s → ∀ c cl, heap s' !! c = Some cl → call_ok cl.
Proof.
  intros H [Hcalls Htasks Hrun] c cl' Hc. step_cases H; simpl in *.
  all: split_lookups; eauto 4 using call_ok_newCall with flight.
  - erewrite (append_fst_eq _ _ c1) by done. eauto with flight.
  - destruct (Hcalls _ _ Heqo0) as (Hr & Hf & Hg).
    destruct (Hf Heqb) as [? ?].
    unfold call_ok; simpl. rewrite Hr, Heqb. intuition congruence.
  - use_task_ok Htasks. destruct Hok as (Ho & Hr & Hf).
    destruct (Hcalls _ _ Heqo0) as (Hn & _ & _).
    unfold call_ok; simpl. intuition congruence.
  - use_task_ok Htasks. destruct Hok as (Ho & Hr & Hf).
    destruct (Hcalls _ _ Heqo0) as (Hn & _ & _).
    unfold call_ok; simpl. intuition congruence.
  - use_task_ok Htasks. destruct Hok as (Ho & Hr & Hf).
    destruct (Hcalls _ _ Heqo0) as (Hn & _ & _).
    unfold call_ok; simpl. intuition congruence.
Qed.

Lemma task_ok_other h c cl cl' t :
  h !! c = Some cl → runner t ≠ Some c →
  (done (ctx cl) = true → done (ctx cl') = true) →
  task_ok h t → task_ok (<[c:=cl']> h) t.
Proof.
  intros Hc Hr Hd Ht.
  assert (c < length h) by eauto using lookup_lt_Some.
  destruct t; simpl in *; try done.
  all: destruct Ht as (cl0 & Hc0 & Ht).
  all: destruct (decide (c0 = c)) as [->|];
    [ try congruence | exists cl0; by rewrite list_lookup_insert_ne by done ].
  exists cl'. rewrite list_lookup_insert_eq by done. simplify_eq. auto.
Qed.

Lemma runner_once s i t c cl :
  inv s → tasks s !! i = Some t → runner t = Some c →
  heap s !! c = Some cl → once cl = true ∧ ready cl = false.
Proof.
  intros [_ Htasks _] Hi Hr Hc. apply Htasks in Hi.
  destruct t; simplify_eq/=; destruct Hi as (? & ? & ? & ? & ?); by simplify_eq.
Qed.

Lemma step_tasks_ok l s s' :
  step l s = Some s' → inv s →
  ∀ i t, tasks s' !! i = Some t → task_ok (heap s') t.
Proof.
  intros H Hinv j tj Hj. pose proof Hinv as [Hcalls Htasks Hrun].
  step_cases H; simpl in *.
  all: split_lookups; try done;
    eauto 4 using task_ok_same_run, task_ok_alloc with flight.
  all: try by Do_cases.
  - erewrite (append_fst_eq _ _ c0) by done.
    eauto using task_ok_same_run with flight.
  - destruct (done (ctx (signal (cworld s) H0))) eqn:E; [|by Do_cases].
    eexists. by rewrite list_lookup_insert_eq by eauto using lookup_lt_Some.
  - destruct (Hcalls _ _ Heqo0) as (_ & Hf & _). destruct (Hf Heqb).
    eexists. by rewrite list_lookup_insert_eq by eauto using lookup_lt_Some.
  - eapply task_ok_other; eauto. intros Hr.
    destruct (runner_once _ _ _ _ _ Hinv Hj Hr Heqo0). congruence.
  - use_task_ok Htasks. destruct Hok as (Ho & Hr & Hf).
    eexists. by rewrite list_lookup_insert_eq by eauto using lookup_lt_Some.
  - eapply task_ok_other; eauto.
  - eapply task_ok_other; eauto.
  - use_task_ok Htasks. destruct Hok as (Ho & Hr & Hf).
    eexists. by rewrite list_lookup_insert_eq by eauto using lookup_lt_Some.
  - eapply task_ok_other; eauto.
Qed.

Lemma step_runner l s s' :
  step l s = Some s' → inv s →
  ∀ i j ti tj c,
    tasks s' !! i = Some ti → tasks s' !! j = Some tj →
    runner ti = Some c → runner tj = Some c → i = j.
Proof.
  intros H Hinv i j ti tj c Hi Hj Hri Hrj.
  pose proof Hinv as [Hcalls Htasks Hrun].
  step_cases H; simpl in *.
  all: split_lookups; simplify_eq/=; try done; eauto 3.
  all: try by destruct from.
  all: try by Do_cases.
  all: try match goal with
           | H : runner (if ?b then _ else _) = _ |- _ =>
               by destruct b
           end.
  all: try by (eapply Hrun; [done..|]).
  all: match goal with
       | Hj : tasks _ !! _ = Some ?t, Hr : runner ?t = Some _ |- _ =>
           destruct (runner_once _ _ _ _ _ Hinv Hj Hr Heqo0); congruence
       end.
Qed.

(** The invariant holds initially and every step keeps it. *)
Lemma inv_init : inv init.
Proof. split; intros *; simpl; by rewrite ?lookup_nil. Qed.

Lemma inv_step l s s' : step l s = Some s' → inv s → inv s'.
Proof.
  intros H Hinv. split;
    eauto using step_calls_ok, step_tasks_ok, step_runner.
Qed.

Lemma inv_exec tr s s' : exec tr s = Some s' → inv s → inv s'.
Proof.
  revert s. induction tr as [|l tr IH]; intros s H Hinv; simplify_option_eq;
    eauto using inv_step.
Qed.

Lemma exec_app tr1 tr2 s :
  exec (tr1 ++ tr2) s = exec tr1 s ≫= exec tr2.
Proof.
  revert s. induction tr1 as [|l tr1 IH]; intros s; simpl; [done|].
  destruct (step l s); simpl; auto.
Qed.

(** ** What a step leaves alone *)

Lemma frozen_refl cl : frozen cl cl.
Proof. by repeat split. Qed.

Lemma frozen_trans cl1 cl2 cl3 : frozen cl1 cl2 → frozen cl2 cl3 → frozen cl1 cl3.
Proof.
  intros (Ha & Hb & Hc) (Ha' & Hb' & Hc'). split; [|split].
  - intros Hr. destruct (Ha Hr) as (Hr2 & Hv & He).
    destruct (Ha' Hr2) as (? & ? & ?). repeat split; congruence.
  - auto.
  - intros Hd. rewrite <- (Hc Hd). apply Hc'. by rewrite (Hc Hd).
Qed.

Lemma frozen_signal w cl : frozen cl (signal w cl).
Proof.
  unfold signal. destruct (done (ctx cl)) eqn:E; [apply frozen_refl|].
  destruct (signal_loop _ _ _); [|apply frozen_refl].
  unfold frozen; simpl. intuition congruence.
Qed.

Lemma frozen_append cl x b : frozen cl (set_mu b (append cl x).1).
Proof.
  unfold append. simpl. destruct (cwriter x) as [w|]; simpl.
  - destruct (add (progress_st cl) w); unfold frozen; simpl; intuition congruence.
  - unfold frozen; simpl; intuition congruence.
Qed.

Lemma step_frozen l s s' c cl :
  inv s → step l s = Some s' → heap s !! c = Some cl →
  ∃ cl', heap s' !! c = Some cl' ∧ frozen cl cl'.
Proof.
  intros [Hcalls Htasks Hrun] H Hc.
  assert (c < length (heap s)) by eauto using lookup_lt_Some.
  step_cases H; simpl in *.
  all: try (exists cl; split; [done|apply frozen_refl]).
  all: try (exists cl; split; [by apply lookup_app_l_Some|apply frozen_refl]).
  all: try use_task_ok Htasks.
  all: match goal with
       | |- ∃ _, <[?c0:=?new]> _ !! _ = _ ∧ _ =>
           destruct (decide (c = c0)) as [->|];
           [ exists new; rewrite list_lookup_insert_eq by done; simplify_eq
           | exists cl; rewrite list_lookup_insert_ne by done;
             split; [done|apply frozen_refl] ]
       end.
  all: split; [done|].
  all: try apply frozen_signal.
  all: try (erewrite (append_fst_eq _ _ c1) by done; apply frozen_append).
  all: unfold frozen; simpl; intuition congruence.
Qed.

Lemma exec_frozen tr s s' c cl :
  inv s → exec tr s = Some s' → heap s !! c = Some cl →
  ∃ cl', heap s' !! c = Some cl' ∧ frozen cl cl'.
Proof.
  revert s cl. induction tr as [|l tr IH]; intros s cl Hinv H Hc; simplify_option_eq.
  - eauto using frozen_refl.
  - destruct (step_frozen _ _ _ _ _ Hinv Heqo Hc) as (cl1 & Hc1 & Hf1).
    destruct (IH _ _ (inv_step _ _ _ Heqo Hinv) H Hc1) as (cl2 & Hc2 & Hf2).
    eauto using frozen_trans.
Qed.

Lemma step_other_task l s s' i t :
  step l s = Some s' → tasks s !! i = Some t → actor l ≠ Some i →
  tasks s' !! i = Some t.
Proof.
  intros H Hi Ha. step_cases H; simpl in *; try done.
  all: rewrite ?lookup_app_l
    by (rewrite ?length_insert; eauto using lookup_lt_Some).
  all: try (rewrite list_lookup_insert_ne by congruence); done.
Qed.

(** A caller that has returned from [Do] takes no further step. *)
Lemma step_returned l s s' i v e :
  step l s = Some s' → tasks s !! i = Some (TReturned v e) →
  tasks s' !! i = Some (TReturned v e).
Proof.
  intros H Hi. destruct (decide (actor l = Some i)) as [Ha|Ha];
    [|eauto using step_other_task].
  destruct l; simplify_eq/=; by rewrite Hi in H.
Qed.

Lemma exec_returned tr s s' i v e :
  exec tr s = Some s' → tasks s !! i = Some (TReturned v e) →
  tasks s' !! i = Some (TReturned v e).
Proof.
  revert s. induction tr as [|l tr IH]; intros s H Hi; simplify_option_eq;
    eauto using step_returned.
Qed.

(** ** How [Group.Do] returns *)

Lemma step_return l s s' i t v e :
  step l s = Some s' → tasks s !! i = Some t →
  tasks s' !! i = Some (TReturned v e) →
  t = TReturned v e ∨ returns_by s t v e.
Proof.
  intros H Hi Hi'.
  destruct (decide (actor l = Some i)) as [Ha|Ha]; last first.
  { left. eapply step_other_task in Hi; eauto. congruence. }
  assert (i < length (tasks s)) by eauto using lookup_lt_Some.
  destruct l; simplify_eq/=; rewrite Hi in H; simpl in H.
  all: destruct t; simplify_option_eq; repeat case_match; simplify_eq/=.
  all: rewrite ?lookup_app_l in Hi' by (by rewrite ?length_insert).
  all: try (rewrite list_lookup_insert_eq in Hi' by done; simplify_eq).
  all: try (destruct from; simplify_eq).
  all: unfold Do_return in *; repeat case_decide; simplify_eq/=.
  all: right.
  - eapply by_retry; eauto.
  - eapply by_default; eauto. by intros _.
  - eapply by_default; eauto. by intros ?.
  - eapply by_ready; eauto. by intros _.
  - eapply by_ready; eauto. by intros ?.
  - eapply by_ready; eauto. by intros _.
  - eapply by_ready; eauto. by intros ?.
Qed.

Lemma step_inner_completed l s s' :
  step l s = Some s' → inner_completed s → inner_completed s'.
Proof.
  intros H Hin j c' x' key' f' from' Hj. unfold inner_completed in Hin.
  step_cases H; simpl in *.
  all: split_task_lookups; simplify_eq/=; eauto.
  all: try by Do_cases.
  - destruct (decide (id = cid x')) as [->|].
    + rewrite lookup_insert_eq. eauto.
    + rewrite lookup_insert_ne by done. eauto.
  - unfold ctx_Done in *. by case_bool_decide.
Qed.

Lemma exec_inner_completed tr s s' :
  exec tr s = Some s' → inner_completed s → inner_completed s'.
Proof.
  revert s. induction tr as [|l tr IH]; intros s H Hin; simplify_option_eq;
    eauto using step_inner_completed.
Qed.

Lemma inner_completed_init : inner_completed init.
Proof. intros i c x key f from. simpl. by rewrite lookup_nil. Qed.

(** * The claims *)

(** ** C1: single execution *)



(** ** C5 and C9: when the merged context completes, and with which error *)

Lemma ctx_Done_true w x : ctx_Done w x = true ↔ completed w x.
Proof. unfold ctx_Done, completed. by rewrite bool_decide_eq_true. Qed.

Lemma ctx_Done_false w x : ctx_Done w x = false ↔ w !! cid x = None.
Proof.
  unfold ctx_Done. rewrite bool_decide_eq_false.
  by rewrite eq_None_not_Some.
Qed.

Lemma signal_loop_Some w l e0 e :
  signal_loop w l e0 = Some e ↔ Forall (completed w) l ∧ e = last_err w l e0.
Proof.
  revert e0. induction l as [|x l IH]; intros e0; simpl.
  - unfold last_err; simpl. split; [intros [= <-]; by split|].
    by intros [_ ->].
  - destruct (ctx_Done w x) eqn:E.
    + rewrite IH. apply ctx_Done_true in E.
      unfold last_err. rewrite last_cons.
      destruct (last l); (split; intros [Hall ->];
        [split; [by (constructor || inversion Hall)|done]
        |split; [by inversion Hall|done]]).
    + split; [done|]. intros [Hall _]. inversion Hall as [|?? Hx]; subst.
      apply ctx_Done_true in Hx. congruence.
Qed.

(** [signal] completes a merged context that was not completed exactly when
    every registered context has completed, and then records the error of the
    one registered last. *)
Lemma signal_fires w cl :
  done (ctx cl) = false →
  (done (ctx (signal w cl)) = true ↔ Forall (completed w) (ctxs cl)) ∧
  (done (ctx (signal w cl)) = true →
   sc_err (ctx (signal w cl)) = last_err w (ctxs cl) None) ∧
  ctxs (signal w cl) = ctxs cl.
Proof.
  intros Hd. unfold signal. rewrite Hd.
  destruct (signal_loop w (ctxs cl) None) as [e|] eqn:E; simpl.
  - apply signal_loop_Some in E as [Hall ->]. by repeat split.
  - rewrite Hd. split; [|by split]. split; [done|]. intros Hall.
    assert (signal_loop w (ctxs cl) None = Some (last_err w (ctxs cl) None))
      by (by apply signal_loop_Some). congruence.
Qed.

Lemma append_fields cl x :
  ctx (append cl x).1 = ctx cl ∧ ctxs (append cl x).1 = ctxs cl ++ [x] ∧
  ready (append cl x).1 = ready cl ∧ result (append cl x).1 = result cl ∧
  err (append cl x).1 = err cl.
Proof.
  unfold append; simpl. destruct (cwriter x) as [w|]; simpl; [|done].
  by destruct (add (progress_st cl) w).
Qed.

(** How a step changes the merged context of a call that was not
    completed: either a signal evaluation on it that finds all registered
    contexts completed, or the merged context is as before. *)
Lemma step_signal l s s' c cl cl' :
  step l s = Some s' → heap s !! c = Some cl → heap s' !! c = Some cl' →
  done (ctx cl) = false →
  (evaluates_signal l s = Some c ∧ cworld s' = cworld s ∧
   cl' = signal (cworld s) cl) ∨
  (evaluates_signal l s ≠ Some c ∧ ctx cl' = ctx cl).
Proof.
  intros H Hc Hc' Hd.
  assert (c < length (heap s)) by eauto using lookup_lt_Some.
  step_cases H; simpl in *.
  all: try rewrite lookup_app_l in Hc' by done.
  all: try (right; split; [by (rewrite ?Heqo)|congruence]).
  all: try match type of Hc' with
       | <[?c0:=_]> _ !! _ = _ =>
           destruct (decide (c = c0)) as [->|];
           [ rewrite list_lookup_insert_eq in Hc' by done
           | rewrite list_lookup_insert_ne in Hc' by done ]
       end; simplify_eq/=.
  all: rewrite ?Heqo.
  all: try (right; split; [congruence|congruence]).
  all: try (left; by repeat split).
  all: try (right; split; [done|]).
  all: try done.
  erewrite (append_fst_eq _ _ c1) by done. apply append_fields.
Qed.

(** The step in which the signal fires.  The completion signal of a merged
    context fires in a step if and only if that step evaluates the merged
    context and every context registered so far as a waiter of the call has
    completed; the step registers no context and completes none, so in the
    state where the signal has just fired every registered context has
    completed. *)
Lemma merged_signal_iff l s s' c cl cl' :
  step l s = Some s' → heap s !! c = Some cl → heap s' !! c = Some cl' →
  done (ctx cl) = false →
  (done (ctx cl') = true ↔
   evaluates_signal l s = Some c ∧ Forall (completed (cworld s)) (ctxs cl)) ∧
  (done (ctx cl') = true → Forall (completed (cworld s')) (ctxs cl')).
Proof.
  intros H Hc Hc' Hd.
  destruct (step_signal _ _ _ _ _ _ H Hc Hc' Hd)
    as [(He & Hw & ->)|[Hne Hctx]].
  - destruct (signal_fires (cworld s) cl Hd) as (Hiff & _ & Hl).
    rewrite Hw, Hl, Hiff. tauto.
  - rewrite Hctx, Hd. split; [|done]. split; [done|]. by intros [? _].
Qed.

(** On [both_cancelled]: the watcher's step fires the signal, with both
    registered contexts completed. *)
Lemma merged_signal_iff_on_both_cancelled :
  ∃ cl', heap fired_state !! 0 = Some cl' ∧ done (ctx cl') = true ∧
         Forall (completed (cworld fired_state)) (ctxs cl').
Proof.
  eexists. split; [by vm_compute|].
  destruct (merged_signal_iff (LStep 4) both_cancelled_state fired_state 0
              (default (newCall 0) (heap both_cancelled_state !! 0))
              (default (newCall 0) (heap fired_state !! 0)))
    as [_ Hall]; [by vm_compute..|].
  split; [by vm_compute|]. apply Hall. by vm_compute.
Qed.

(** C5 fails on the code.  The first caller is the only registered waiter
    and the work function is running; the caller's context completes and its
    watcher fires the completion signal of the merged context.  Lines 114-115
    say that no more callers are accepted then, but [wait] tests only
    [c.ready] (lines 99-104), which is still open, and [append] registers the
    contexts of the second and of the third caller.  The signal of the merged
    context has fired while two contexts registered as waiters of the call
    have not completed, and the work function is still running with its
    context completed. *)
Theorem merged_done_with_active_waiters :
  ∃ s0 s1 cl0 cl1,
    exec (take 9 late_joiners) init = Some s0 ∧
    heap s0 !! 0 = Some cl0 ∧ ctxs cl0 = [ctxA] ∧
    done (ctx cl0) = true ∧ ready cl0 = false ∧
    exec [LStep 1; LStep 1; LStep 1; LStep 2; LStep 2; LStep 2] s0
      = Some s1 ∧
    heap s1 !! 0 = Some cl1 ∧ done (ctx cl1) = true ∧ ready cl1 = false ∧
    ctxs cl1 = [ctxA; ctxB; ctxC] ∧
    active (cworld s1) cl1 = [ctxB; ctxC] ∧
    tasks s1 !! 1 = Some (TSelect 0 ctxB "k" 0 Line33) ∧
    tasks s1 !! 2 = Some (TSelect 0 ctxC "k" 0 Line33) ∧
    tasks s1 !! 6 = Some (TFn 0) ∧
    (Done (cworld s1) cl1).2 = true.
Proof.
  pose (s1 := default init
                (exec [LStep 1; LStep 1; LStep 1; LStep 2; LStep 2; LStep 2]
                   merged_done_state)).
  exists merged_done_state, s1,
    (default (newCall 0) (heap merged_done_state !! 0)),
    (default (newCall 0) (heap s1 !! 0)).
  subst s1. vm_compute. by repeat split.
Qed.

(** C9, as stated, fails.  Two waiters, registered in the order [ctxA],
    [ctxB].  [ctxB] completes first, with [Canceled]; [ctxA] is then the only
    active waiter, and its completion, with [DeadlineExceeded], takes the
    number of active waiters to zero.  The signal then fires and records
    [Canceled], the error of [ctxB]. *)
Lemma merged_error_not_from_trigger :
  ∃ s1 s2 s3 cl1 cl2 cl3,
    exec (two_joined ++ [LCancel 1 Canceled; LStep 6]) init = Some s1 ∧
    heap s1 !! 0 = Some cl1 ∧ active (cworld s1) cl1 = [ctxA] ∧
    step (LCancel 0 DeadlineExceeded) s1 = Some s2 ∧
    heap s2 !! 0 = Some cl2 ∧ active (cworld s2) cl2 = [] ∧
    done (ctx cl2) = false ∧
    step (LStep 4) s2 = Some s3 ∧
    heap s3 !! 0 = Some cl3 ∧ done (ctx cl3) = true ∧
    ctx_Err (cworld s3) ctxA = Some DeadlineExceeded ∧
    sc_err (ctx cl3) = Some Canceled.
Proof.
  pose (s1 := default init
                (exec (two_joined ++ [LCancel 1 Canceled; LStep 6]) init)).
  exists s1, both_cancelled_state, fired_state,
    (default (newCall 0) (heap s1 !! 0)),
    (default (newCall 0) (heap both_cancelled_state !! 0)),
    (default (newCall 0) (heap fired_state !! 0)).
  subst s1. vm_compute. by repeat split.
Qed.

(** C9, amended.  When the completion signal of a merged context fires, the
    error recorded on it is the completion error of the context that was
    registered last, whichever context completed last. *)
Theorem merged_error_last_registered l s s' c cl cl' :
  step l s = Some s' → heap s !! c = Some cl → heap s' !! c = Some cl' →
  done (ctx cl) = false → done (ctx cl') = true →
  sc_err (ctx cl') = last_err (cworld s') (ctxs cl') None.
Proof.
  intros H Hc Hc' Hd Hd'.
  destruct (step_signal _ _ _ _ _ _ H Hc Hc' Hd)
    as [(He & Hw & ->)|[Hne Hctx]]; [|congruence].
  destruct (signal_fires (cworld s) cl Hd) as (_ & Herr & Hl).
  rewrite Hw, Hl. auto.
Qed.

(** C9 on [both_cancelled]: the recorded error is that of [ctxB]. *)
Lemma merged_error_last_registered_witness :
  ∃ cl', heap fired_state !! 0 = Some cl' ∧
         last (ctxs cl') = Some ctxB ∧
         sc_err (ctx cl') = ctx_Err (cworld fired_state) ctxB.
Proof.
  eexists. split; [by vm_compute|]. split; [by vm_compute|].
  etrans.
  - apply (merged_error_last_registered (LStep 4) both_cancelled_state
             fired_state 0
             (default (newCall 0) (heap both_cancelled_state !! 0)));
      by vm_compute.
  - by vm_compute.
Defined.

(** ** C7: the deadline of the merged context *)

(** C7, as stated, fails.  Two active waiters, the first with deadline 10,
    the second with deadline 5: [Deadline] answers 10. *)
Lemma Deadline_not_earliest :
  ∃ s cl,
    exec [LSpawn ctxLate "k" 0; LSpawn ctxSoon "k" 0; LStep 0; LStep 1;
          LStep 0; LStep 0; LStep 1; LStep 1] init = Some s ∧
    heap s !! 0 = Some cl ∧ active (cworld s) cl = [ctxLate; ctxSoon] ∧
    Deadline (cworld s) cl = Some 10%Z ∧
    Deadline_earliest (cworld s) cl = Some 5%Z.
Proof.
  pose (s := default init
               (exec [LSpawn ctxLate "k" 0; LSpawn ctxSoon "k" 0; LStep 0;
                      LStep 1; LStep 0; LStep 0; LStep 1; LStep 1] init)).
  exists s, (default (newCall 0) (heap s !! 0)).
  subst s. vm_compute. by repeat split.
Qed.

(** C7, amended.  [Deadline] returns the deadline of the first waiter
    context, in the order of registration, that has not completed and has a
    deadline; it skips the contexts that have completed, and reports no
    deadline when no active waiter has one. *)
Theorem Deadline_first_active w cl :
  match Deadline w cl with
  | Some dl =>
      ∃ l1 x l2, ctxs cl = l1 ++ x :: l2 ∧
        ctx_Done w x = false ∧ cdeadline x = Some dl ∧
        Forall (λ y, ctx_Done w y = true ∨ cdeadline y = None) l1
  | None =>
      Forall (λ y, ctx_Done w y = true ∨ cdeadline y = None) (ctxs cl)
  end.
Proof.
  unfold Deadline. induction (ctxs cl) as [|y l IH]; simpl; [done|].
  destruct (ctx_Done w y) eqn:Ey; [|destruct (cdeadline y) as [dl|] eqn:Ed].
  - destruct (Deadline_loop w l) as [dl|].
    + destruct IH as (l1 & x & l2 & -> & ? & ? & ?).
      exists (y :: l1), x, l2. repeat split; auto.
    + constructor; auto.
  - exists [], y, l. repeat split; auto.
  - destruct (Deadline_loop w l) as [dl|].
    + destruct IH as (l1 & x & l2 & -> & ? & ? & ?).
      exists (y :: l1), x, l2. repeat split; auto.
    + constructor; auto.
Qed.

(** ** C2, C3, C4: what a suspended waiter returns *)

(** What [Do] makes of the pair [wait] returned. *)
Lemma Do_return_handed x key f from v e :
  handed_on from e → Do_return x key f from v e = TReturned v e.
Proof.
  unfold handed_on, Do_return. intros Hh. destruct from; [|done].
  case_decide; [|done]. by destruct Hh.
Qed.

Lemma Do_return_retry x key f v :
  Do_return x key f Line33 v (Some errRetry) = TDo x key f.
Proof. unfold Do_return. by case_decide. Qed.

Lemma Do_return_returned x key f from v e v' e' :
  Do_return x key f from v e = TReturned v' e' →
  v' = v ∧ e' = e ∧ handed_on from e.
Proof.
  unfold Do_return, handed_on. destruct from; [case_decide|];
    intros; by simplify_eq.
Qed.

(** The steps of a waiter from the outer [select] on. *)
Lemma step_select l s s' i c x key f from cl :
  step l s = Some s' → actor l = Some i →
  tasks s !! i = Some (TSelect c x key f from) → heap s !! c = Some cl →
  (l = LSelectCtx i ∧ completed (cworld s) x ∧
   tasks s' !! i = Some (TInner c x key f from)) ∨
  (l = LSelectReady i ∧ ready cl = true ∧
   tasks s' !! i = Some (Do_return x key f from (result cl) (err cl))).
Proof.
  intros H Ha Hi Hc.
  assert (i < length (tasks s)) by eauto using lookup_lt_Some.
  destruct l; simplify_eq/=; rewrite Hi in H; simplify_option_eq.
  - left. destruct (ctx_Done (cworld s) x) eqn:E; simplify_eq/=.
    apply ctx_Done_true in E. by rewrite list_lookup_insert_eq.
  - right. destruct (ready cl) eqn:E; simplify_eq/=.
    by rewrite list_lookup_insert_eq.
Qed.



Lemma real_result_frozen cl cl' v e :
  frozen cl cl' → real_result cl v e → real_result cl' v e.
Proof.
  intros (Hr & Hf & _) (Hready & Hout & Hv & He).
  destruct (Hr Hready) as (? & ? & ?). unfold real_result.
  repeat split; [done|by apply Hf|congruence..].
Qed.

Lemma real_result_ready cl :
  call_ok cl → ready cl = true → real_result cl (result cl) (err cl).
Proof. intros (_ & _ & Hf) Hr. repeat split; auto. Qed.

(** C2, as stated, fails.  Both callers have joined the call and neither
    context has completed when the call finishes with [(7, nil)].  The first
    caller has registered but has not yet entered the [select] of line 110;
    its context completes after the call has finished, so when it enters the
    [select] both cases are ready.  It may take [<-ctx.Done()], and as the
    second waiter is still active it returns [(nil, Canceled)]. *)
Lemma late_cancel_loses_result :
  ∃ s1 s2 cl1,
    exec (two_joined ++ [LFnReturn 5 (Some 7) None; LStep 5; LStep 5]) init
      = Some s1 ∧
    heap s1 !! 0 = Some cl1 ∧ ready cl1 = true ∧
    result cl1 = Some 7 ∧ err cl1 = None ∧
    active (cworld s1) cl1 = [ctxA; ctxB] ∧
    tasks s1 !! 0 = Some (TSelect 0 ctxA "k" 0 Line51) ∧
    tasks s1 !! 1 = Some (TSelect 0 ctxB "k" 0 Line33) ∧
    exec [LCancel 0 Canceled; LSelectCtx 0; LStep 0; LSelectReady 1] s1
      = Some s2 ∧
    tasks s2 !! 0 = Some (TReturned None (Some Canceled)) ∧
    tasks s2 !! 1 = Some (TReturned (Some 7) None).
Proof.
  pose (s1 := default init
                (exec (two_joined ++
                         [LFnReturn 5 (Some 7) None; LStep 5; LStep 5]) init)).
  pose (s2 := default init
                (exec [LCancel 0 Canceled; LSelectCtx 0; LStep 0;
                       LSelectReady 1] s1)).
  exists s1, s2, (default (newCall 0) (heap s1 !! 0)).
  subst s1 s2. vm_compute. by repeat split.
Qed.

(** The other way C2 fails.  The work function returns [(7, errRetry)]: it
    can, by passing on what a nested [Do] returned to it from line 51.  No
    context completes.  The caller that created the call gets that pair from
    line 51.  The caller that joined gets the same pair from [wait] at line
    33, where the test of line 34 takes it for the retry condition: it calls
    [Do] again, the entry of the finished call having been removed it creates
    a second call, the work function runs a second time, and it returns what
    that run returned, [(8, nil)]. *)
Lemma retry_result_splits_callers :
  ∃ s1 s2 s3 cl1,
    exec retry_from_fn init = Some s1 ∧
    heap s1 !! 0 = Some cl1 ∧ real_result cl1 (Some 7) (Some errRetry) ∧
    cworld s1 = ∅ ∧
    tasks s1 !! 0 = Some (TSelect 0 ctxA "k" 0 Line51) ∧
    tasks s1 !! 1 = Some (TSelect 0 ctxB "k" 0 Line33) ∧
    exec [LSelectReady 0; LSelectReady 1] s1 = Some s2 ∧
    tasks s2 !! 0 = Some (TReturned (Some 7) (Some errRetry)) ∧
    tasks s2 !! 1 = Some (TDo ctxB "k" 0) ∧
    exec retry_second_run s2 = Some s3 ∧
    length (heap s3) = 2 ∧ cworld s3 = ∅ ∧
    tasks s3 !! 0 = Some (TReturned (Some 7) (Some errRetry)) ∧
    tasks s3 !! 1 = Some (TReturned (Some 8) None).
Proof.
  pose (s1 := default init (exec retry_from_fn init)).
  pose (s2 := default init (exec [LSelectReady 0; LSelectReady 1] s1)).
  pose (s3 := default init (exec retry_second_run s2)).
  exists s1, s2, s3, (default (newCall 0) (heap s1 !! 0)).
  subst s1 s2 s3. vm_compute. by repeat split.
Qed.

(** A waiter whose context has not completed resumes by [<-c.ready] only,
    and [wait] returns the result stored in the call. *)
Lemma select_active_returns l s s' i c x key f from cl :
  inv s → tasks s !! i = Some (TSelect c x key f from) →
  cworld s !! cid x = None →
  heap s !! c = Some cl → actor l = Some i → step l s = Some s' →
  l = LSelectReady i ∧ real_result cl (result cl) (err cl) ∧
  tasks s' !! i = Some (Do_return x key f from (result cl) (err cl)).
Proof.
  intros Hinv Hi Hx Hc Ha Hs.
  destruct (step_select _ _ _ _ _ _ _ _ _ _ Hs Ha Hi Hc)
    as [(_ & [e' He'] & _)|(Hl & Hr & Hi')]; [congruence|].
  split; [done|]. split; [|done].
  apply real_result_ready; [by eapply inv_calls|done].
Qed.

(** C2, amended.  A caller that has joined a call and whose context has not
    completed when it resumes from the [select] of [wait] can resume once the
    call has finished, and only then; [wait] returns to it the pair the work
    function returned, which is the pair stored in the call and stays so in
    every later state, so all such callers get the identical pair.  [Do] hands
    that pair to its caller, unless the call of [wait] was the one of line 33
    and the error of the pair is [errRetry]: then [Do] is called again. *)
Theorem fanout_identical tr s i c x key f from cl :
  exec tr init = Some s → tasks s !! i = Some (TSelect c x key f from) →
  cworld s !! cid x = None → heap s !! c = Some cl →
  (ready cl = true → is_Some (step (LSelectReady i) s)) ∧
  ∀ l s', actor l = Some i → step l s = Some s' →
    ∃ v e, wait_returns_real l s s' i c x key f from v e ∧
      real_result cl v e ∧
      (handed_on from e → tasks s' !! i = Some (TReturned v e)) ∧
      (from = Line33 → e = Some errRetry →
       tasks s' !! i = Some (TDo x key f)) ∧
      ∀ tr2 s2, exec tr2 s' = Some s2 →
        ∃ cl2, heap s2 !! c = Some cl2 ∧ real_result cl2 v e.
Proof.
  intros Hex Hi Hx Hc. pose proof (inv_exec _ _ _ Hex inv_init) as Hinv.
  split.
  - intros Hr. unfold step. rewrite Hi. simpl. rewrite Hc. simpl.
    rewrite Hr. eauto.
  - intros l s' Ha Hs.
    destruct (select_active_returns _ _ _ _ _ _ _ _ _ _ Hinv Hi Hx Hc Ha Hs)
      as (Hl & Hreal & Hi').
    exists (result cl), (err cl).
    split; [|split; [done|split; [|split]]].
    + split; [by left|]. split; [by exists cl|done].
    + intros Hh. by rewrite Hi', Do_return_handed.
    + intros -> He. by rewrite Hi', He, Do_return_retry.
    + intros tr2 s2 Hex2.
      destruct (step_frozen _ _ _ _ _ Hinv Hs Hc) as (cl1 & Hc1 & Hf1).
      destruct (exec_frozen _ _ _ _ _ (inv_step _ _ _ Hs Hinv) Hex2 Hc1)
        as (cl2 & Hc2 & Hf2).
      exists cl2. split; [done|].
      eauto using real_result_frozen.
Qed.

(** Two callers of one call that resume, one after the other, with their
    contexts not completed and return from [Do] return the same pair. *)
Lemma fanout_same_pair tr s l s' tr2 s2 l2 s2' c i x key f from
    j y key' f' from' v e v' e' :
  exec tr init = Some s →
  tasks s !! i = Some (TSelect c x key f from) → cworld s !! cid x = None →
  actor l = Some i → step l s = Some s' →
  tasks s' !! i = Some (TReturned v e) →
  exec tr2 s' = Some s2 →
  tasks s2 !! j = Some (TSelect c y key' f' from') →
  cworld s2 !! cid y = None →
  actor l2 = Some j → step l2 s2 = Some s2' →
  tasks s2' !! j = Some (TReturned v' e') →
  (v, e) = (v', e').
Proof.
  intros Hex Hi Hx Ha Hs Hi' Hex2 Hj Hy Ha2 Hs2 Hj'.
  pose proof (inv_exec _ _ _ Hex inv_init) as Hinv.
  pose proof (inv_exec _ _ _ Hex2 (inv_step _ _ _ Hs Hinv)) as Hinv2.
  assert (is_Some (heap s !! c)) as [cl Hc].
  { destruct l; simplify_eq/=; rewrite Hi in Hs; simpl in Hs; try done.
    - by rewrite (proj2 (ctx_Done_false _ _) Hx) in Hs.
    - destruct (heap s !! c); [eauto|done]. }
  destruct (select_active_returns _ _ _ _ _ _ _ _ _ _ Hinv Hi Hx Hc Ha Hs)
    as (_ & Hreal & Hr1).
  destruct (step_frozen _ _ _ _ _ Hinv Hs Hc) as (cl1 & Hc1 & Hf1).
  destruct (exec_frozen _ _ _ _ _ (inv_step _ _ _ Hs Hinv) Hex2 Hc1)
    as (cl2 & Hc2 & Hf2).
  destruct (select_active_returns _ _ _ _ _ _ _ _ _ _ Hinv2 Hj Hy Hc2 Ha2 Hs2)
    as (_ & _ & Hr2).
  assert (real_result cl2 (result cl) (err cl)) as (_ & _ & Hv & He)
    by eauto using real_result_frozen.
  rewrite Hi' in Hr1. rewrite Hj' in Hr2. simplify_eq.
  symmetry in Hr1, Hr2.
  apply Do_return_returned in Hr1 as (-> & -> & _).
  apply Do_return_returned in Hr2 as (-> & -> & _).
  congruence.
Qed.

(** C2 on [finished_state]: the second caller, which joined at line 33,
    returns [(7, nil)]. *)
Lemma fanout_identical_witness :
  ∃ s', step (LSelectReady 1) finished_state = Some s' ∧
        tasks s' !! 1 = Some (TReturned (Some 7) None).
Proof.
  pose (s' := default init (step (LSelectReady 1) finished_state)).
  exists s'. split; [by vm_compute|].
  destruct (fanout_identical
              (two_joined ++ [LFnReturn 5 (Some 7) None; LStep 5; LStep 5])
              finished_state 1 0 ctxB "k" 0 Line33
              (default (newCall 0) (heap finished_state !! 0)))
    as [_ Hret]; [by vm_compute..|].
  destruct (Hret (LSelectReady 1) s') as (v & e & _ & Hreal & Hi & _);
    [by vm_compute..|].
  destruct Hreal as (_ & Hout & _). vm_compute in Hout.
  simplify_eq. by apply Hi.
Defined.








Lemma signal_loop_active w l e0 y :
  y ∈ l → w !! cid y = None → signal_loop w l e0 = None.
Proof.
  intros Hy Hw. revert e0. induction Hy as [y l|y z l Hy IH]; intros e0; simpl.
  - by rewrite (proj2 (ctx_Done_false w y)).
  - destruct (ctx_Done w z); auto.
Qed.

(** With the merged context not completed and a registered context still
    active, [signal] changes nothing. *)
Lemma signal_active w cl y :
  done (ctx cl) = false → y ∈ ctxs cl → w !! cid y = None →
  signal w cl = cl.
Proof.
  intros Hd Hy Hw. unfold signal.
  by rewrite Hd, (signal_loop_active _ _ _ _ Hy Hw).
Qed.

(** C4 fails on the code.  The first caller is the only waiter; its context
    completes and the merged context is completed, with the work function
    still running.  Lines 114-115 say that no more callers are accepted then,
    but [wait] tests only [c.ready]: the second and the third caller join the
    call.  The second caller's context then completes, before the call
    finishes and while the third waiter is registered and active.  The second
    caller does not return with its own error: it finds the merged context
    completed, blocks at line 116 until the work function returns, and
    returns the work function's [(7, nil)]. *)
Theorem leaver_waits_for_result :
  ∃ s0 s1 s2 s3 cl0 cl1,
    exec (take 9 late_joiners) init = Some s0 ∧
    heap s0 !! 0 = Some cl0 ∧ ctxs cl0 = [ctxA] ∧
    done (ctx cl0) = true ∧ ready cl0 = false ∧
    exec (drop 9 late_joiners) s0 = Some s1 ∧
    heap s1 !! 0 = Some cl1 ∧ ctxs cl1 = [ctxA; ctxB; ctxC] ∧
    ready cl1 = false ∧
    tasks s1 !! 1 = Some (TSelect 0 ctxB "k" 0 Line33) ∧
    ctx_Err (cworld s1) ctxB = Some Canceled ∧
    active (cworld s1) cl1 = [ctxC] ∧
    step (LSelectReady 1) s1 = None ∧
    exec [LSelectCtx 1; LStep 1] s1 = Some s2 ∧
    tasks s2 !! 1 = Some (TAwait 0 ctxB "k" 0 Line33) ∧
    step (LStep 1) s2 = None ∧
    exec [LFnReturn 6 (Some 7) None; LStep 6; LStep 6; LStep 1] s2
      = Some s3 ∧
    tasks s3 !! 1 = Some (TReturned (Some 7) None) ∧
    active (cworld s3) cl1 = [ctxC].
Proof.
  pose (s2 := default init (exec [LSelectCtx 1; LStep 1] late_joiners_state)).
  pose (s3 := default init
                (exec [LFnReturn 6 (Some 7) None; LStep 6; LStep 6; LStep 1]
                   s2)).
  exists merged_done_state, late_joiners_state, s2, s3,
    (default (newCall 0) (heap merged_done_state !! 0)),
    (default (newCall 0) (heap late_joiners_state !! 0)).
  subst s2 s3. vm_compute. by repeat split.
Qed.

(** Another way C4 fails: the first caller's context completes before the
    call finishes and while the second waiter is active, but the caller
    enters the [select] of line 110 only after the call has finished; both
    cases are ready and it may take [<-c.ready]. *)
Lemma leaver_may_take_ready :
  ∃ s1 s2 cl1,
    exec (two_joined ++ [LCancel 0 Canceled]) init = Some s1 ∧
    heap s1 !! 0 = Some cl1 ∧ ready cl1 = false ∧
    active (cworld s1) cl1 = [ctxB] ∧
    exec [LFnReturn 5 (Some 7) None; LStep 5; LStep 5; LSelectReady 0] s1
      = Some s2 ∧
    tasks s2 !! 0 = Some (TReturned (Some 7) None).
Proof.
  pose (s1 := default init (exec (two_joined ++ [LCancel 0 Canceled]) init)).
  pose (s2 := default init
                (exec [LFnReturn 5 (Some 7) None; LStep 5; LStep 5;
                       LSelectReady 0] s1)).
  exists s1, s2, (default (newCall 0) (heap s1 !! 0)).
  subst s1 s2. vm_compute. by repeat split.
Qed.

(** What the code does for a leaver when no caller has been accepted after
    the completion of the merged context.  A waiter that took
    [<-ctx.Done()] and evaluates the merged context while the merged context
    is not completed and some registered waiter context is still active gets
    from [wait], at once, a nil result and its own context's completion
    error; the step changes no call, so the merged context stays uncompleted
    and the work goes on. *)
Lemma leaver_gets_own_error tr s i c x key f from cl y :
  exec tr init = Some s → tasks s !! i = Some (TInner c x key f from) →
  heap s !! c = Some cl → mu cl = false →
  done (ctx cl) = false → y ∈ ctxs cl → cworld s !! cid y = None →
  ∃ s' e, step (LStep i) s = Some s' ∧
    ctx_Err (cworld s) x = Some e ∧
    tasks s' !! i = Some (Do_return x key f from None (Some e)) ∧
    heap s' = heap s ∧ cworld s' = cworld s.
Proof.
  intros Hex Hi Hc Hmu Hd Hy Hw.
  pose proof (exec_inner_completed _ _ _ Hex inner_completed_init) as Hin.
  destruct (Hin _ _ _ _ _ _ Hi) as [e He].
  exists (upd_task i (Do_return x key f from None (Some e)) s), e.
  unfold step. rewrite Hi. simpl. rewrite Hc. simpl. rewrite Hmu.
  rewrite (signal_active _ _ _ Hd Hy Hw), Hd.
  unfold ctx_Err. rewrite He. unfold upd_call, upd_task; simpl.
  rewrite (list_insert_id _ _ _ Hc).
  repeat split; try done.
  by rewrite list_lookup_insert_eq by eauto using lookup_lt_Some.
Qed.

(** On [one_leaves]: the first caller returns [(nil, Canceled)] and no call
    changes. *)
Lemma leaver_gets_own_error_on_one_leaves :
  ∃ s', step (LStep 0) one_leaves_state = Some s' ∧
        tasks s' !! 0 = Some (TReturned None (Some Canceled)) ∧
        heap s' = heap one_leaves_state.
Proof.
  destruct (leaver_gets_own_error one_leaves one_leaves_state 0 0 ctxA
              "k" 0 Line51
              (default (newCall 0) (heap one_leaves_state !! 0)) ctxB)
    as (s' & e & Hs & He & Hi & Hh & _).
  - by vm_compute.
  - by vm_compute.
  - by vm_compute.
  - by vm_compute.
  - by vm_compute.
  - vm_compute. apply list_elem_of_In. simpl. auto.
  - by vm_compute.
  - exists s'. vm_compute in He. by simplify_eq.
Qed.

(** ** C6: the retry condition *)

(** C6 fails on the code: on the interleaving [creator_overtaken], [Do]
    returns [(nil, errRetry)] to the caller that created the call, and the
    call is still in the map. *)
Theorem retry_returned_to_creator :
  ∃ s, exec creator_overtaken init = Some s ∧
       tasks s !! 0 = Some (TReturned None (Some errRetry)) ∧
       g_m s !! "k" = Some 0.
Proof.
  exists (default init (exec creator_overtaken init)).
  vm_compute. by repeat split.
Qed.

(** On the path of line 33 the retry condition is absorbed: the caller
    is back at the entry of [Do] with the same arguments. *)
Lemma retry_absorbed_at_line33 s i c x key f cl :
  tasks s !! i = Some (TWait c x key f Line33) → heap s !! c = Some cl →
  mu cl = false → ready cl = true →
  step (LStep i) s = Some (upd_task i (TDo x key f) s).
Proof.
  intros Hi Hc Hmu Hr. unfold step. rewrite Hi. simpl. rewrite Hc. simpl.
  by rewrite Hmu, Hr.
Qed.

(** Whatever the call of [wait] at line 33 returns, [Do] hands [errRetry] to
    its caller only from line 51: a caller to which a step returns [errRetry]
    was inside the call of [wait] made at line 51. *)
Lemma retry_only_from_line51 l s s' i t v :
  step l s = Some s' →
  tasks s !! i = Some t → tasks s' !! i = Some (TReturned v (Some errRetry)) →
  t = TReturned v (Some errRetry) ∨
  ∃ c x key f,
    t = TWait c x key f Line51 ∨ t = TSelect c x key f Line51 ∨
    t = TInner c x key f Line51 ∨ t = TAwait c x key f Line51.
Proof.
  intros Hs Hi Hi'.
  destruct (step_return _ _ _ _ _ _ _ Hs Hi Hi') as [?|Hby]; [by left|].
  right. destruct Hby as [c x key f cl -> _ _ _ _
                         |c x key f from cl Ht _ _ _ _ Hh
                         |c x key f from cl -> _ _ _ _ _ Hh].
  - eauto 7.
  - exists c, x, key, f. destruct from; [by destruct Hh|].
    destruct Ht as [->| ->]; auto.
  - exists c, x, key, f. destruct from; [by destruct Hh|]. auto.
Qed.

(** ** C8 and C10: subscribing a progress writer *)

(** C8, as stated, fails.  The multiplexer is done and holds one buffered
    item; [add] writes that item to the new writer before it closes it. *)
Lemma done_subscriber_gets_replay :
  ∃ s1 s2 cl1,
    exec (subscribe_after_done ctxRaw) init = Some s1 ∧
    heap s1 !! 0 = Some cl1 ∧ ps_done (progress_st cl1) = true ∧
    tasks s1 !! 1 = Some (TAppend 0 ctxRaw "k" 0 Line33) ∧ log s1 = [] ∧
    add (progress_st cl1) rawWriter =
      (progress_st cl1,
       [(rawWriter, WriteRawProgress item1); (rawWriter, Close)]) ∧
    step (LStep 1) s1 = Some s2 ∧
    log s2 = [(rawWriter, WriteRawProgress item1); (rawWriter, Close)].
Proof.
  pose (s1 := default init (exec (subscribe_after_done ctxRaw) init)).
  exists s1, (default init (step (LStep 1) s1)),
    (default (newCall 0) (heap s1 !! 0)).
  subst s1. vm_compute. by repeat split.
Qed.

(** C8, amended.  For a writer that implements the raw interface, added when
    the multiplexer is done, [add] writes the buffered items, one per
    identifier and in nondecreasing order of timestamp, then closes the
    writer; the writer is not registered and the state is unchanged. *)
Theorem add_after_done ps pw :
  ps_done ps = true → raw pw = true →
  ∃ plist,
    add ps pw =
      (ps, ((λ p, (pw, WriteRawProgress p)) <$> plist) ++ [(pw, Close)]) ∧
    plist ≡ₚ snapshot ps ∧ Sorted not_after plist ∧
    length plist = size (items ps).
Proof.
  intros Hd Hr. exists (sort_Slice (snapshot ps)).
  unfold add. rewrite Hr, Hd. split; [done|].
  assert (sort_Slice (snapshot ps) ≡ₚ snapshot ps) as Hp
    by apply merge_sort_Permutation.
  split; [done|]. split; [apply Sorted_merge_sort, _|].
  rewrite Hp. unfold snapshot. by rewrite length_fmap, length_map_to_list.
Qed.

(** C8 on [done_with_item]. *)
Lemma add_after_done_witness :
  ∃ plist,
    add done_with_item rawWriter =
      (done_with_item,
       ((λ p, (rawWriter, WriteRawProgress p)) <$> plist) ++
       [(rawWriter, Close)]) ∧
    plist ≡ₚ snapshot done_with_item ∧ Sorted not_after plist ∧
    length plist = size (items done_with_item).
Proof. apply add_after_done; reflexivity. Defined.











(** * Further properties of the package *)

(** ** The progress multiplexer *)

Lemma run_item_fold ps out batch :
  foldl run_item (ps, out) batch =
  ({| items := foldl (λ m p, <[ID p := p]> m) (items ps) batch;
      writers := writers ps; ps_done := ps_done ps |},
   out ++ (batch ≫= λ p, (λ w, (w, WriteRawProgress p)) <$> writers ps)).
Proof.
  revert ps out. induction batch as [|p batch IH]; intros ps out; simpl.
  - rewrite app_nil_r. by destruct ps.
  - unfold run_item at 2. simpl. rewrite IH. simpl. by rewrite app_assoc.
Qed.

Lemma foldl_insert_lookup (batch : list Progress) (m : gmap string Progress) id :
  foldl (λ m p, <[ID p := p]> m) m batch !! id =
  match last (filter (λ p, ID p = id) batch) with
  | Some p => Some p
  | None => m !! id
  end.
Proof.
  revert m. induction batch as [|p batch IH]; intros m; simpl; [done|].
  rewrite IH. rewrite filter_cons. destruct (decide (ID p = id)) as [<-|Hne].
  - rewrite last_cons. destruct (last _); [done|]. by rewrite lookup_insert_eq.
  - destruct (last _); [done|]. by rewrite lookup_insert_ne.
Qed.

(** One batch read by [progressState.run]: every item goes to every
    subscribed writer, item by item in the order received and writer by
    writer in the order of subscription; for each identifier the buffer then
    holds the last item of the batch with that identifier, or what it held
    before; the subscriptions and the done flag are unchanged and the loop
    goes on. *)
Theorem run_batch_fans_out ps batch :
  let r := run_iter ps (ReadBatch batch) in
  r.1.2 = (batch ≫= λ p, (λ w, (w, WriteRawProgress p)) <$> writers ps) ∧
  (∀ id, items r.1.1 !! id =
         match last (filter (λ p, ID p = id) batch) with
         | Some p => Some p
         | None => items ps !! id
         end) ∧
  writers r.1.1 = writers ps ∧ ps_done r.1.1 = ps_done ps ∧ r.2 = true.
Proof.
  simpl. rewrite run_item_fold. simpl.
  repeat split. intros id. apply foldl_insert_lookup.
Qed.

Lemma calls_on_other pw (ws : list Writer) (c : wcall) :
  pw ∉ ws → calls_on pw ((λ w, (w, c)) <$> ws) = [].
Proof.
  intros Hn. unfold calls_on. induction ws as [|w ws IH]; [done|].
  apply not_elem_of_cons in Hn as [Hne Hn].
  rewrite fmap_cons, filter_cons. simpl.
  destruct (decide (w = pw)); [congruence|]. by apply IH.
Qed.

Lemma calls_on_self pw (c : wcall) :
  calls_on pw ((λ w, (w, c)) <$> [pw]) = [(pw, c)].
Proof.
  unfold calls_on. simpl. rewrite filter_cons. simpl.
  by destruct (decide (pw = pw)).
Qed.

Lemma calls_on_app pw out1 out2 :
  calls_on pw (out1 ++ out2) = calls_on pw out1 ++ calls_on pw out2.
Proof. apply filter_app. Qed.

Lemma calls_on_batch pw (ws : list Writer) (batch : list Progress) :
  pw ∉ ws →
  calls_on pw
    (batch ≫= λ p, (λ w, (w, WriteRawProgress p)) <$> (ws ++ [pw])) =
  (λ p, (pw, WriteRawProgress p)) <$> batch.
Proof.
  intros Hn. induction batch as [|p batch IH]; [done|].
  rewrite bind_cons, calls_on_app, IH, fmap_app, calls_on_app.
  by rewrite calls_on_other, calls_on_self.
Qed.

(** A writer that implements the raw interface and subscribes before the end
    of the stream is first sent the buffered items in nondecreasing order of
    timestamp, and is appended to the subscriptions with the buffer
    unchanged.  If it was not subscribed already, the next batch then reaches
    it item by item, each once and in the order received, and the end of the
    stream closes it once. *)
Theorem subscriber_replay_then_live ps pw batch :
  raw pw = true → ps_done ps = false → pw ∉ writers ps →
  ∃ plist,
    add ps pw =
      ({| items := items ps; writers := writers ps ++ [pw];
          ps_done := false |},
       (λ p, (pw, WriteRawProgress p)) <$> plist) ∧
    plist ≡ₚ snapshot ps ∧ Sorted not_after plist ∧
    calls_on pw (run_iter (add ps pw).1 (ReadBatch batch)).1.2 =
      ((λ p, (pw, WriteRawProgress p)) <$> batch) ∧
    calls_on pw (run_iter (add ps pw).1 ReadEOF).1.2 = [(pw, Close)].
Proof.
  intros Hr Hd Hn. exists (sort_Slice (snapshot ps)).
  unfold add. rewrite Hr, Hd. split; [done|].
  split; [apply merge_sort_Permutation|].
  split; [apply Sorted_merge_sort, _|]. split.
  - simpl. rewrite run_item_fold. simpl. by apply calls_on_batch.
  - simpl. rewrite fmap_app, calls_on_app.
    by rewrite calls_on_other, calls_on_self.
Qed.

(** One item buffered, a new raw writer, a batch of one item. *)
Lemma subscriber_replay_then_live_witness :
  ∃ plist,
    add {| items := {[ "a" := item1 ]}; writers := []; ps_done := false |}
        rawWriter =
      ({| items := {[ "a" := item1 ]}; writers := [] ++ [rawWriter];
          ps_done := false |},
       (λ p, (rawWriter, WriteRawProgress p)) <$> plist) ∧
    plist ≡ₚ [item1].
Proof.
  destruct (subscriber_replay_then_live
              {| items := {[ "a" := item1 ]}; writers := [];
                 ps_done := false |} rawWriter [item1])
    as (plist & Hadd & Hp & _); [done|done|by apply not_elem_of_nil|].
  exists plist. split; [done|]. rewrite Hp. by vm_compute.
Defined.

Lemma keyed_new : keyed newProgressState.
Proof. intros id p. simpl. by rewrite lookup_empty. Qed.

Lemma keyed_add ps pw : keyed ps → keyed (add ps pw).1.
Proof. unfold add. by repeat case_match. Qed.

Lemma keyed_run_iter ps r : keyed ps → keyed (run_iter ps r).1.1.
Proof.
  intros Hk. destruct r as [batch| |]; simpl; try done.
  rewrite run_item_fold. intros id p. simpl. rewrite foldl_insert_lookup.
  destruct (last _) as [q|] eqn:Hl; [|by apply Hk].
  intros [= ->]. apply last_Some_elem_of in Hl.
  by apply list_elem_of_filter in Hl as [? _].
Qed.

Lemma progress_st_signal w cl : progress_st (signal w cl) = progress_st cl.
Proof.
  unfold signal. destruct (done (ctx cl)); [done|].
  by destruct (signal_loop _ _ _).
Qed.

Lemma progress_st_append cl x :
  progress_st (append cl x).1 =
  match cwriter x with
  | Some w => (add (progress_st cl) w).1
  | None => progress_st cl
  end.
Proof.
  unfold append; simpl. destruct (cwriter x) as [w|]; [|done].
  by destruct (add (progress_st cl) w).
Qed.

(** A property of the multiplexer that [add] and [run] keep holds of every
    call of the system. *)
Lemma step_progress_inv (P : progressState → Prop) l s s' :
  P newProgressState →
  (∀ ps pw, P ps → P (add ps pw).1) →
  (∀ ps r, P ps → P (run_iter ps r).1.1) →
  step l s = Some s' →
  Forall (λ cl, P (progress_st cl)) (heap s) →
  Forall (λ cl, P (progress_st cl)) (heap s').
Proof.
  intros Hnew Hadd Hrun H Hh.
  assert (∀ c cl, heap s !! c = Some cl → P (progress_st cl)) as Hall
    by (intros c cl Hc; exact (Forall_lookup_1 _ _ _ _ Hh Hc)).
  step_cases H; simpl in *; try done.
  all: try (apply Forall_insert; [done|]; simpl;
            rewrite ?progress_st_signal; by eauto).
  - apply Forall_app. split; [done|]. by repeat constructor.
  - match goal with
    | Hp : append ?cl ?x = (?c1, _) |- _ =>
        apply append_fst_eq in Hp; subst c1
    end.
    apply Forall_insert; [done|]. simpl. rewrite progress_st_append.
    destruct (cwriter x); eauto.
  - match goal with
    | Hp : run_iter ?ps ?r = (?p0, _, _) |- _ =>
        assert (p0 = (run_iter ps r).1.1) as -> by (by rewrite Hp)
    end.
    apply Forall_insert; [done|]. simpl. eauto.
Qed.

Lemma exec_progress_inv (P : progressState → Prop) tr s s' :
  P newProgressState →
  (∀ ps pw, P ps → P (add ps pw).1) →
  (∀ ps r, P ps → P (run_iter ps r).1.1) →
  exec tr s = Some s' →
  Forall (λ cl, P (progress_st cl)) (heap s) →
  Forall (λ cl, P (progress_st cl)) (heap s').
Proof.
  intros Hnew Hadd Hrun. revert s.
  induction tr as [|l tr IH]; intros s H Hh; simplify_option_eq;
    eauto using step_progress_inv.
Qed.

Lemma keyed_snapshot_ids ps :
  keyed ps → ID <$> snapshot ps = (map_to_list (items ps)).*1.
Proof.
  intros Hk. unfold snapshot. rewrite <- list_fmap_compose.
  apply list_fmap_ext. intros i [id p] Hi. simpl.
  apply list_elem_of_lookup_2, elem_of_map_to_list in Hi. by apply Hk.
Qed.

(** In every reachable state the buffer of a call holds each item under its
    own identifier, so what [add] replays to a new subscriber names each
    identifier at most once and has as many items as the buffer has
    identifiers. *)
Theorem replay_distinct_ids tr s c cl :
  exec tr init = Some s → heap s !! c = Some cl →
  keyed (progress_st cl) ∧
  NoDup (ID <$> sort_Slice (snapshot (progress_st cl))) ∧
  length (sort_Slice (snapshot (progress_st cl))) =
    size (items (progress_st cl)).
Proof.
  intros Hex Hc.
  assert (keyed (progress_st cl)) as Hk.
  { eapply (Forall_lookup_1 (λ cl, keyed (progress_st cl))); [|done].
    eapply (exec_progress_inv keyed);
      eauto using keyed_new, keyed_add, keyed_run_iter. }
  assert (sort_Slice (snapshot (progress_st cl)) ≡ₚ snapshot (progress_st cl))
    as Hp by apply merge_sort_Permutation.
  split; [done|]. rewrite Hp. split.
  - rewrite keyed_snapshot_ids by done. apply NoDup_fst_map_to_list.
  - unfold snapshot. by rewrite length_fmap, length_map_to_list.
Qed.

(** On [progress_flows]: two identifiers buffered, two items replayed. *)
Lemma replay_distinct_ids_witness :
  ∃ cl, heap progress_flows_state !! 0 = Some cl ∧
        NoDup (ID <$> sort_Slice (snapshot (progress_st cl))) ∧
        length (sort_Slice (snapshot (progress_st cl))) = 2.
Proof.
  exists (default (newCall 0) (heap progress_flows_state !! 0)).
  split; [by vm_compute|].
  destruct (replay_distinct_ids progress_flows progress_flows_state 0
              (default (newCall 0) (heap progress_flows_state !! 0)))
    as (_ & Hnd & Hlen); [by vm_compute..|].
  split; [exact Hnd|]. rewrite Hlen. by vm_compute.
Defined.

(** ** The queries of the merged context *)

(** [call.Value] returns the first non-nil value that a registered context
    which has not completed gives for the key, in the order of registration,
    and nil when there is none: a context that has completed is never asked
    for its value. *)
Theorem Value_first_active {K} (ctx_Value : Context → K → value) w cl key :
  Value ctx_Value w cl key = head (omap (λ x, ctx_Value x key) (active w cl)).
Proof.
  unfold Value, active. induction (ctxs cl) as [|x l IH]; [done|].
  simpl. rewrite filter_cons. destruct (ctx_Done w x) eqn:Hx.
  - apply ctx_Done_true in Hx as [e He].
    destruct (decide (w !! cid x = None)); [congruence|done].
  - apply ctx_Done_false in Hx.
    destruct (decide (w !! cid x = None)); [|done]. simpl.
    by destruct (ctx_Value x key).
Qed.

(** ** Registration and well-formedness *)

Lemma grows_refl cl : grows cl cl.
Proof. by unfold grows. Qed.

Lemma grows_signal w cl : grows cl (signal w cl).
Proof.
  unfold grows, signal. destruct (done (ctx cl)); [done|].
  by destruct (signal_loop _ _ _).
Qed.

Lemma grows_append cl x b : grows cl (set_mu b (append cl x).1).
Proof.
  unfold grows. simpl. destruct (append_fields cl x) as (_ & -> & _).
  by apply prefix_app_r.
Qed.

Lemma step_grows l s s' c cl :
  step l s = Some s' → heap s !! c = Some cl →
  ∃ cl', heap s' !! c = Some cl' ∧ grows cl cl'.
Proof.
  intros H Hc.
  assert (c < length (heap s)) by eauto using lookup_lt_Some.
  step_cases H; simpl in *.
  all: try (exists cl; split; [done|apply grows_refl]).
  all: try (exists cl; split; [by apply lookup_app_l_Some|apply grows_refl]).
  all: match goal with
       | |- ∃ _, <[?c0:=?new]> _ !! _ = _ ∧ _ =>
           destruct (decide (c = c0)) as [->|];
           [ exists new; rewrite list_lookup_insert_eq by done; simplify_eq
           | exists cl; rewrite list_lookup_insert_ne by done;
             split; [done|apply grows_refl] ]
       end.
  all: split; [done|].
  all: try apply grows_signal.
  all: try (erewrite (append_fst_eq _ _ c1) by done; apply grows_append).
  all: by unfold grows.
Qed.

Lemma task_reg_grows h h' t :
  (∀ c cl, h !! c = Some cl → ∃ cl', h' !! c = Some cl' ∧ grows cl cl' ∧
                                     (ready cl = true → ready cl' = true)) →
  task_reg h t → task_reg h' t.
Proof.
  intros Hg Ht. destruct t; simpl in *; try done.
  all: try (destruct Ht as [cl Hc];
            destruct (Hg _ _ Hc) as (cl' & Hc' & _); by eauto).
  all: destruct Ht as (cl & Hc & Hx);
    destruct (Hg _ _ Hc) as (cl' & Hc' & Hgr & Hr); exists cl';
    (split; [done|]); unfold grows in Hgr.
  all: try (by eapply elem_of_prefix).
  all: try (intros Hnil; rewrite Hnil in Hgr;
            apply prefix_nil_inv in Hgr; by subst).
  all: auto.
Qed.

Lemma signal_fires_ctxs w cl : ctxs (signal w cl) = ctxs cl.
Proof.
  unfold signal. destruct (done (ctx cl)); [done|].
  by destruct (signal_loop _ _ _).
Qed.

Lemma step_grows_ready l s s' :
  inv s → step l s = Some s' →
  ∀ c cl, heap s !! c = Some cl →
    ∃ cl', heap s' !! c = Some cl' ∧ grows cl cl' ∧
           (ready cl = true → ready cl' = true).
Proof.
  intros Hinv H c cl Hc.
  destruct (step_grows _ _ _ _ _ H Hc) as (cl' & Hc' & Hg).
  destruct (step_frozen _ _ _ _ _ Hinv H Hc) as (cl'' & Hc'' & Hf & _).
  simplify_eq. exists cl'. split; [done|]. split; [done|].
  intros Hr. by destruct (Hf Hr).
Qed.

Lemma step_wf_tasks l s s' :
  inv s → wf s → step l s = Some s' →
  ∀ i t, tasks s' !! i = Some t → task_reg (heap s') t.
Proof.
  intros Hinv [Htasks Hcalls Hmap] H j tj Hj.
  pose proof (step_grows_ready _ _ _ Hinv H) as Hg.
  step_cases H; simpl in *.
  all: split_task_lookups; simplify_eq/=; try done.
  all: try (eapply task_reg_grows; [exact Hg|]; by eauto).
  all: try match goal with
           | Ht : tasks _ !! _ = Some _ |- _ =>
               let Hr := fresh "Hr" in
               pose proof (Htasks _ _ Ht) as Hr; simpl in Hr;
               try destruct Hr as (? & ? & Hr); simplify_eq
           end.
  all: try match goal with
           | |- is_Some ((_ ++ [_]) !! length _) =>
               rewrite lookup_app_r, Nat.sub_diag by done; by eexists
           | |- is_Some (<[_:=_]> _ !! _) =>
               rewrite list_lookup_insert_eq by eauto using lookup_lt_Some;
               by eexists
           | |- ∃ _, <[_:=_]> _ !! _ = Some _ ∧ _ =>
               eexists; split;
               [by apply list_lookup_insert_eq; eauto using lookup_lt_Some|];
               simpl
           end.
  all: try done; eauto.
  all: try by destruct from.
  all: try by Do_cases.
  all: try match goal with
           | Hp : append ?cl ?x = (?c1, _) |- _ =>
               apply append_fst_eq in Hp; subst c1;
               destruct (append_fields cl x) as (_ & -> & _)
           end.
  all: try (intros Hnil; by apply app_eq_nil in Hnil as [_ ?]).
  all: try (apply elem_of_app; right; by apply list_elem_of_singleton).
  - destruct (done (ctx (signal (cworld s) H0))) eqn:E; [|by Do_cases]. simpl.
    eexists. rewrite list_lookup_insert_eq by eauto using lookup_lt_Some.
    split; [done|]. by rewrite signal_fires_ctxs.
  - destruct b; [|done]. simpl.
    rewrite list_lookup_insert_eq by eauto using lookup_lt_Some. by eexists.
Qed.

Lemma call_wf_new w f : call_wf w (newCall f).
Proof. by repeat split. Qed.

Lemma call_wf_world w id e cl :
  w !! id = None → call_wf w cl → call_wf (<[id:=e]> w) cl.
Proof.
  intros Hid (H1 & H2 & H3 & H4). repeat split; try done.
  intros Hd. destruct (H2 Hd) as (x & e' & Hx & He & Hw).
  exists x, e'. repeat split; try done.
  rewrite lookup_insert_ne; [done|]. congruence.
Qed.

Lemma call_wf_signal w cl :
  ctxs cl ≠ [] → call_wf w cl → call_wf w (signal w cl).
Proof.
  intros Hne Hwf. destruct (done (ctx cl)) eqn:Hd.
  { by rewrite signal_done_mono. }
  destruct (signal_fires w cl Hd) as (Hiff & Herr & Hl).
  destruct Hwf as (H1 & H2 & H3 & H4).
  pose proof (same_run_signal w cl) as (Ho & Hr & _).
  unfold call_wf. rewrite Hl, progress_st_signal, Ho, Hr.
  assert (pw_closed (signal w cl) = pw_closed cl) as ->.
  { unfold signal. rewrite Hd. by destruct (signal_loop _ _ _). }
  repeat split; try done.
  intros Hd'. rewrite (Herr Hd'). apply Hiff in Hd'. unfold last_err.
  destruct (last (ctxs cl)) as [x|] eqn:Hlast.
  - apply last_Some_elem_of in Hlast as Hx.
    rewrite Forall_forall in Hd'. destruct (Hd' _ Hx) as [e He].
    exists x, e. by repeat split.
  - by apply last_None in Hlast.
Qed.

Lemma call_wf_append w cl x b :
  call_wf w cl → call_wf w (set_mu b (append cl x).1).
Proof.
  intros (H1 & H2 & H3 & H4). unfold call_wf.
  destruct (append_fields cl x) as (Hctx & Hl & Hr & _). simpl.
  rewrite Hctx, Hl, Hr, progress_st_append.
  assert (once (append cl x).1 = once cl ∧
          pw_closed (append cl x).1 = pw_closed cl) as [-> ->].
  { unfold append; simpl. destruct (cwriter x) as [w'|]; [|done].
    by destruct (add (progress_st cl) w'). }
  assert (ps_done match cwriter x with
                  | Some w' => (add (progress_st cl) w').1
                  | None => progress_st cl
                  end = ps_done (progress_st cl)) as ->.
  { destruct (cwriter x); [|done]. unfold add. by repeat case_match. }
  repeat split; try done.
  - intros _ Hnil. by apply app_eq_nil in Hnil as [_ ?].
  - intros Hd. destruct (H2 Hd) as (y & e & Hy & He & Hw).
    exists y, e. repeat split; try done. apply elem_of_app. by left.
Qed.

Lemma call_wf_run_iter w cl r :
  match r with ReadEOF => negb (pw_closed cl) | _ => false end = false →
  call_wf w cl → call_wf w (set_progress_st (run_iter (progress_st cl) r).1.1 cl).
Proof.
  intros Hguard (H1 & H2 & H3 & H4). repeat split; try done. simpl.
  destruct r as [batch| |]; simpl; try done.
  - by rewrite run_item_fold.
  - intros _. by destruct (pw_closed cl).
Qed.

Lemma step_wf_calls l s s' :
  wf s → step l s = Some s' →
  ∀ c cl, heap s' !! c = Some cl → call_wf (cworld s') cl.
Proof.
  intros [Htasks Hcalls Hmap] H c cl' Hc.
  step_cases H; simpl in *.
  all: split_lookups; simplify_eq/=; eauto using call_wf_new.
  all: try match goal with
           | Ht : tasks _ !! _ = Some _ |- _ =>
               let Hr := fresh "Hr" in
               pose proof (Htasks _ _ Ht) as Hr; simpl in Hr;
               try destruct Hr as (? & ? & Hr); simplify_eq
           end.
  all: try (apply call_wf_signal; by eauto).
  all: try match goal with
           | Hp : append ?cl ?x = (?c1, _) |- _ =>
               apply append_fst_eq in Hp; subst c1; apply call_wf_append;
               by eauto
           end.
  all: try match goal with
           | Hp : run_iter ?ps ?r = (?p0, _, _) |- _ =>
               assert (p0 = (run_iter ps r).1.1) as -> by (by rewrite Hp);
               apply call_wf_run_iter; by eauto
           end.
  all: try match goal with
           | Hc : heap _ !! _ = Some ?cl |- call_wf _ _ =>
               pose proof (Hcalls _ _ Hc) as (Hw1 & Hw2 & Hw3 & Hw4)
           end.
  - apply call_wf_world; [tauto|]. by repeat split.
  - by repeat split.
  - apply call_wf_signal; [|by repeat split].
    intros Hnil. rewrite Hnil in Hr. by apply elem_of_nil in Hr.
  - by repeat split.
  - by repeat split.
  - by repeat split.
  - by repeat split.
  - apply call_wf_signal; [|by repeat split].
    intros Hnil. rewrite Hnil in Hr. by apply elem_of_nil in Hr.
  - by repeat split.
Qed.

Lemma step_wf_map l s s' :
  wf s → step l s = Some s' →
  ∀ key c, g_m s' !! key = Some c → is_Some (heap s' !! c).
Proof.
  intros [Htasks Hcalls Hmap] H key' c' Hk.
  assert (∀ c, is_Some (heap s !! c) → c < length (heap s)) as Hlt
    by (intros c [? ?]; eauto using lookup_lt_Some).
  step_cases H; simpl in *.
  all: try (apply lookup_lt_is_Some; rewrite ?length_insert; by eauto).
  - destruct (decide (key = key')) as [->|].
    + rewrite lookup_insert_eq in Hk. simplify_eq.
      rewrite lookup_app_r, Nat.sub_diag by done. by eexists.
    + rewrite lookup_insert_ne in Hk by done.
      apply lookup_lt_is_Some. rewrite length_app. simpl.
      specialize (Hlt _ (Hmap _ _ Hk)). lia.
  - apply lookup_delete_Some in Hk as [_ Hk]. eauto.
Qed.

Lemma wf_init : wf init.
Proof.
  split; intros *; simpl; by rewrite ?lookup_nil, ?lookup_empty.
Qed.

Lemma wf_step l s s' : inv s → wf s → step l s = Some s' → wf s'.
Proof.
  intros Hinv Hwf H. split;
    eauto using step_wf_tasks, step_wf_calls, step_wf_map.
Qed.

Lemma wf_exec tr s s' : inv s → wf s → exec tr s = Some s' → wf s'.
Proof.
  revert s. induction tr as [|l tr IH]; intros s Hinv Hwf H;
    simplify_option_eq; eauto using wf_step, inv_step.
Qed.

Lemma wf_reachable tr s : exec tr init = Some s → inv s ∧ wf s.
Proof.
  intros H. split; [by eapply inv_exec, inv_init|].
  by eapply wf_exec; [apply inv_init|apply wf_init|].
Qed.

(** ** The map of the group and its cleanup *)

Lemma step_g_entry l s s' :
  wf s → group_ok s → step l s = Some s' →
  ∀ i c key, tasks s' !! i = Some (TCleanup c key) → g_m s' !! key = Some c.
Proof.
  intros [Htasks _ _] [Hcl Hen Hun Hal] H j c' key' Hj.
  step_cases H; simpl in *.
  all: split_task_lookups; simplify_eq/=; eauto.
  all: try by Do_cases.
  - rewrite lookup_insert_ne; [by eauto|]. intros ->.
    apply Hen in Hj. congruence.
  - by rewrite lookup_insert_eq.
  - rewrite lookup_delete_ne; [by eauto|]. intros ->.
    match goal with
    | Hi : tasks _ !! ?i = Some (TCleanup _ _), Hne : ?i ≠ _ |- _ =>
        apply Hne; eapply Hun; [exact Hi|exact Hj|by right]
    end.
Qed.

Lemma step_g_cleanup l s s' :
  wf s → group_ok s → step l s = Some s' →
  ∀ key c, g_m s' !! key = Some c → ∃ i, tasks s' !! i = Some (TCleanup c key).
Proof.
  intros [Htasks _ _] [Hcl Hen Hun Hal] H key' c' Hk.
  step_cases H; simpl in *.
  all: try (destruct (Hcl _ _ Hk) as [i' Hi']; by keep_task i').
  - destruct (decide (key = key')) as [->|].
    + rewrite lookup_insert_eq in Hk. simplify_eq.
      exists (S (length (tasks s))).
      rewrite lookup_app_r by (rewrite length_insert; lia).
      rewrite length_insert. by replace (S _ - _) with 1 by lia.
    + rewrite lookup_insert_ne in Hk by done.
      destruct (Hcl _ _ Hk) as [i' Hi']. by keep_task i'.
  - apply lookup_delete_Some in Hk as [Hne Hk].
    destruct (Hcl _ _ Hk) as [i' Hi']. by keep_task i'.
Qed.

Lemma step_g_uniq l s s' :
  wf s → group_ok s → step l s = Some s' →
  ∀ i j c c' key key',
    tasks s' !! i = Some (TCleanup c key) →
    tasks s' !! j = Some (TCleanup c' key') →
    c = c' ∨ key = key' → i = j.
Proof.
  intros [Htasks _ _] [Hcl Hen Hun Hal] H i j c c' key key' Hi Hj Hor.
  pose proof (λ i c key (Ht : tasks s !! i = Some (TCleanup c key)),
                lookup_lt_is_Some_1 _ _ (Htasks _ _ Ht)) as Hlt.
  step_cases H; simpl in *.
  all: split_task_lookups; simplify_eq/=; eauto.
  all: try by Do_cases.
  all: try lia.
  all: exfalso.
  all: match goal with
       | Ht : tasks _ !! _ = Some (TCleanup ?c0 ?key0) |- _ =>
           pose proof (Hlt _ _ _ Ht); pose proof (Hen _ _ _ Ht)
       end.
  all: destruct Hor; [lia|congruence].
Qed.

Lemma step_g_alive l s s' :
  inv s → wf s → group_ok s → step l s = Some s' →
  ∀ c cl, heap s' !! c = Some cl → ready cl = false →
    ∃ i key, tasks s' !! i = Some (TCleanup c key).
Proof.
  intros Hinv [Htasks _ _] [Hcl Hen Hun Hal] H c cl' Hc Hr.
  step_cases H; simpl in *.
  all: split_lookups; simplify_eq/=.
  all: try match goal with
           | Hp : append ?cl ?x = (?c1, _) |- _ =>
               apply append_fst_eq in Hp; subst c1;
               destruct (append_fields cl x) as (_ & _ & Hrd & _);
               simpl in Hr; rewrite Hrd in Hr
           end.
  all: try match goal with
           | Hs : ready (signal ?w ?cl) = false |- _ =>
               destruct (same_run_signal w cl) as (_ & Hrd & _);
               rewrite Hrd in Hs
           end.
  all: try (edestruct Hal as (i' & key' & Hi'); [done..|];
            exists i', key'; simpl;
            rewrite ?lookup_app_l
              by (rewrite ?length_insert; eauto using lookup_lt_Some);
            rewrite ?list_lookup_insert_ne by congruence; done).
  assert (c = length (heap s)) as -> by lia.
  exists (S (length (tasks s))), key.
  rewrite lookup_app_r by (rewrite length_insert; lia).
  rewrite length_insert. by replace (S _ - _) with 1 by lia.
Qed.

Lemma group_ok_init : group_ok init.
Proof.
  split; intros *; simpl; by rewrite ?lookup_nil, ?lookup_empty.
Qed.

Lemma group_ok_step l s s' :
  inv s → wf s → group_ok s → step l s = Some s' → group_ok s'.
Proof.
  intros Hinv Hwf Hg H. split;
    eauto using step_g_cleanup, step_g_entry, step_g_uniq, step_g_alive.
Qed.

Lemma group_ok_exec tr s s' :
  inv s → wf s → group_ok s → exec tr s = Some s' → group_ok s'.
Proof.
  revert s. induction tr as [|l tr IH]; intros s Hinv Hwf Hg H;
    simplify_option_eq; eauto using group_ok_step, wf_step, inv_step.
Qed.

Lemma group_ok_reachable tr s : exec tr init = Some s → group_ok s.
Proof.
  intros H. eapply group_ok_exec;
    eauto using inv_init, wf_init, group_ok_init.
Qed.

Lemma exec_grows tr s s' c cl :
  exec tr s = Some s' → heap s !! c = Some cl →
  ∃ cl', heap s' !! c = Some cl' ∧ grows cl cl'.
Proof.
  revert s cl. induction tr as [|l tr IH]; intros s cl H Hc; simplify_option_eq.
  - eauto using grows_refl.
  - destruct (step_grows _ _ _ _ _ Heqo Hc) as (cl1 & Hc1 & Hg1).
    destruct (IH _ _ H Hc1) as (cl2 & Hc2 & Hg2).
    exists cl2. split; [done|]. unfold grows in *. by etrans.
Qed.

(** A caller suspended in [wait] has its context in the list of waiters of
    its call, and the list only ever grows at its end: in every later state,
    whether or not the caller has returned, the list extends the present one
    and still holds that context. *)
Theorem waiter_stays_registered tr s i c x key f from tr2 s2 :
  exec tr init = Some s → tasks s !! i = Some (TSelect c x key f from) →
  exec tr2 s = Some s2 →
  ∃ cl cl2, heap s !! c = Some cl ∧ heap s2 !! c = Some cl2 ∧
            x ∈ ctxs cl ∧ ctxs cl `prefix_of` ctxs cl2 ∧ x ∈ ctxs cl2.
Proof.
  intros Hex Hi Hex2. destruct (wf_reachable _ _ Hex) as [_ Hwf].
  destruct (wf_tasks _ Hwf _ _ Hi) as (cl & Hc & Hx).
  destruct (exec_grows _ _ _ _ _ Hex2 Hc) as (cl2 & Hc2 & Hg).
  exists cl, cl2. repeat split; try done. by eapply elem_of_prefix.
Qed.

(** On [one_leaves] and [two_joined]: the first caller is registered and
    stays so after it has left with its own error. *)
Lemma waiter_stays_registered_witness :
  ∃ cl2, heap one_left_state !! 0 = Some cl2 ∧ ctxA ∈ ctxs cl2.
Proof.
  destruct (waiter_stays_registered two_joined two_joined_state 0 0 ctxA
              "k" 0 Line51
              [LCancel 0 Canceled; LSelectCtx 0; LStep 0] one_left_state)
    as (cl & cl2 & _ & Hc2 & _ & _ & Hx); [by vm_compute..|].
  by exists cl2.
Defined.

(** The work function is started only for a call with a registered waiter,
    so the context it is given is never completed for want of waiters: in
    every reachable state a call whose guard has been claimed has a
    non-empty list of waiters, and a merged context that has completed
    carries the completion error of a registered context that has
    completed. *)
Theorem run_has_a_waiter tr s c cl :
  exec tr init = Some s → heap s !! c = Some cl → once cl = true →
  ctxs cl ≠ [] ∧
  (done (ctx cl) = true →
   ∃ x e, x ∈ ctxs cl ∧ sc_err (ctx cl) = Some e ∧
          ctx_Err (cworld s) x = Some e).
Proof.
  intros Hex Hc Ho. destruct (wf_reachable _ _ Hex) as [_ Hwf].
  destruct (wf_calls _ Hwf _ _ Hc) as (H1 & H2 & _). auto.
Qed.

(** On [fired_state]: two waiters, the merged error is that of [ctxB]. *)
Lemma run_has_a_waiter_witness :
  ∃ cl x e, heap fired_state !! 0 = Some cl ∧ x ∈ ctxs cl ∧
            sc_err (ctx cl) = Some e ∧ ctx_Err (cworld fired_state) x = Some e.
Proof.
  pose (cl := default (newCall 0) (heap fired_state !! 0)).
  destruct (run_has_a_waiter (both_cancelled ++ [LStep 4]) fired_state 0 cl)
    as [_ Herr]; [by vm_compute..|].
  destruct Herr as (x & e & Hx & He & Hw); [by vm_compute|].
  exists cl, x, e. by repeat split.
Defined.

(** [call.Err] on a call with a registered waiter, in a reachable state: it
    returns a non-nil error exactly when [call.Done] reports the merged
    context completed; the error is then the completion error of a registered
    context; and when it returns nil some registered context has not
    completed. *)
Theorem Err_contract tr s c cl :
  exec tr init = Some s → heap s !! c = Some cl → ctxs cl ≠ [] →
  (is_Some (Err (cworld s) cl).2 ↔ (Done (cworld s) cl).2 = true) ∧
  (∀ e, (Err (cworld s) cl).2 = Some e →
        ∃ x, x ∈ ctxs cl ∧ ctx_Err (cworld s) x = Some e) ∧
  ((Err (cworld s) cl).2 = None →
   ∃ x, x ∈ ctxs cl ∧ ctx_Err (cworld s) x = None).
Proof.
  intros Hex Hc Hne. destruct (wf_reachable _ _ Hex) as [_ Hwf].
  pose proof (call_wf_signal (cworld s) cl Hne (wf_calls _ Hwf _ _ Hc))
    as (_ & Herr & _).
  unfold Err, Done. simpl. rewrite signal_fires_ctxs in Herr.
  destruct (done (ctx (signal (cworld s) cl))) eqn:Hd.
  - destruct (Herr eq_refl) as (x & e & Hx & He & Hw).
    rewrite He. split; [by split; eauto|]. split; [|done].
    intros e' [= <-]. eauto.
  - split; [split; [by intros [? ?]|done]|]. split; [done|]. intros _.
    destruct (done (ctx cl)) eqn:Hd0.
    { by rewrite signal_done_mono, Hd0 in Hd. }
    destruct (signal_fires (cworld s) cl Hd0) as (Hiff & _).
    assert (¬ Forall (completed (cworld s)) (ctxs cl)) as Hnot
      by (rewrite <- Hiff; congruence).
    apply not_Forall_Exists in Hnot; [|intros x; apply _].
    apply Exists_exists in Hnot as (x & Hx & Hnx). exists x.
    split; [done|]. unfold ctx_Err. by apply eq_None_not_Some.
Qed.

(** On [both_cancelled_state]: [Err] evaluates the merged context, finds
    both contexts completed and returns [Canceled]. *)
Lemma Err_contract_witness :
  ∃ cl, heap both_cancelled_state !! 0 = Some cl ∧
        (Err (cworld both_cancelled_state) cl).2 = Some Canceled ∧
        (Done (cworld both_cancelled_state) cl).2 = true.
Proof.
  pose (cl := default (newCall 0) (heap both_cancelled_state !! 0)).
  destruct (Err_contract both_cancelled both_cancelled_state 0 cl)
    as (Hiff & _); [by vm_compute..|].
  exists cl. split; [by vm_compute|]. split; [by vm_compute|].
  apply Hiff. exists Canceled. by vm_compute.
Defined.

(** ** What is final *)

(** Once [c.ready] is closed the call is final: in every later state
    [c.ready] is closed, [c.result] and [c.err] are what they were, they are
    what the work function returned, and the work function has been entered
    exactly once. *)
Theorem finished_is_final tr s c cl tr2 s2 :
  exec tr init = Some s → heap s !! c = Some cl → ready cl = true →
  exec tr2 s = Some s2 →
  ∃ cl2, heap s2 !! c = Some cl2 ∧ ready cl2 = true ∧
         result cl2 = result cl ∧ err cl2 = err cl ∧
         fn_out cl2 = Some (result cl, err cl) ∧ runs cl2 = 1.
Proof.
  intros Hex Hc Hr Hex2. pose proof (inv_exec _ _ _ Hex inv_init) as Hinv.
  destruct (exec_frozen _ _ _ _ _ Hinv Hex2 Hc) as (cl2 & Hc2 & Hf).
  pose proof (inv_exec _ _ _ Hex2 Hinv) as Hinv2.
  destruct (inv_calls _ Hinv2 _ _ Hc2) as (Hruns & Honce & Hout).
  destruct Hf as (Hf & _). destruct (Hf Hr) as (Hr2 & Hv & He).
  exists cl2. repeat split; try done.
  - rewrite <- Hv, <- He. auto.
  - rewrite Hruns. destruct (once cl2); [done|]. destruct Honce; congruence.
Qed.

(** On [finished_state], after [both_return]. *)
Lemma finished_is_final_witness :
  ∃ cl2, heap both_returned_state !! 0 = Some cl2 ∧
         result cl2 = Some 7 ∧ runs cl2 = 1.
Proof.
  destruct (finished_is_final
              (two_joined ++ [LFnReturn 5 (Some 7) None; LStep 5; LStep 5])
              finished_state 0
              (default (newCall 0) (heap finished_state !! 0))
              both_return both_returned_state)
    as (cl2 & Hc2 & _ & Hv & _ & _ & Hruns); [by vm_compute..|].
  exists cl2. split; [done|]. split; [|done]. rewrite Hv. by vm_compute.
Defined.

(** Once the merged context has completed it stays completed and keeps its
    error, whatever registers or completes afterwards: in every later state
    [call.Done] reports it closed and [call.Err] returns that same non-nil
    error, and neither changes the call. *)
Theorem merged_completion_is_final tr s c cl tr2 s2 :
  exec tr init = Some s → heap s !! c = Some cl → done (ctx cl) = true →
  exec tr2 s = Some s2 →
  ∃ cl2 e, heap s2 !! c = Some cl2 ∧ sc_err (ctx cl) = Some e ∧
           Done (cworld s2) cl2 = (cl2, true) ∧
           Err (cworld s2) cl2 = (cl2, Some e).
Proof.
  intros Hex Hc Hd Hex2. destruct (wf_reachable _ _ Hex) as [Hinv Hwf].
  destruct (exec_frozen _ _ _ _ _ Hinv Hex2 Hc) as (cl2 & Hc2 & _ & _ & Hf).
  specialize (Hf Hd).
  destruct (wf_calls _ Hwf _ _ Hc) as (_ & Herr & _).
  destruct (Herr Hd) as (x & e & _ & He & _).
  exists cl2, e. split; [done|]. split; [done|].
  unfold Err, Done. rewrite signal_done_mono by congruence.
  simpl. by rewrite Hf, Hd, He.
Qed.

(** On [late_joiners]: the merged context completed with one waiter; two
    more register, one of them completes, and [Err] is still [Canceled]. *)
Lemma merged_completion_is_final_witness :
  ∃ cl2, heap late_joiners_state !! 0 = Some cl2 ∧
         Err (cworld late_joiners_state) cl2 = (cl2, Some Canceled).
Proof.
  destruct (merged_completion_is_final (take 9 late_joiners)
              merged_done_state 0
              (default (newCall 0) (heap merged_done_state !! 0))
              (drop 9 late_joiners) late_joiners_state)
    as (cl2 & e & Hc2 & He & _ & Herr); [by vm_compute..|].
  exists cl2. split; [done|].
  rewrite Herr. vm_compute in He. by simplify_eq.
Defined.

(** The producer side of the progress stream is closed only after
    [c.ready]; with a stream that ends only once its producer side is closed,
    the multiplexer of a call is done only when the call has finished and
    holds the result of the work function. *)
Theorem done_only_after_finished tr s c cl :
  exec tr init = Some s → heap s !! c = Some cl →
  (pw_closed cl = true → ready cl = true) ∧
  (ps_done (progress_st cl) = true →
   pw_closed cl = true ∧ ready cl = true ∧
   fn_out cl = Some (result cl, err cl)).
Proof.
  intros Hex Hc. destruct (wf_reachable _ _ Hex) as [Hinv Hwf].
  destruct (wf_calls _ Hwf _ _ Hc) as (_ & _ & H3 & H4).
  destruct (inv_calls _ Hinv _ _ Hc) as (_ & _ & Hout).
  split; [done|]. intros Hd. repeat split; auto.
Qed.

(** On [subscribe_after_done]: the multiplexer is done, the call finished. *)
Lemma done_only_after_finished_witness :
  ∃ cl, heap subscribed_late_state !! 0 = Some cl ∧
        ps_done (progress_st cl) = true ∧ ready cl = true.
Proof.
  pose (cl := default (newCall 0) (heap subscribed_late_state !! 0)).
  destruct (done_only_after_finished (subscribe_after_done ctxRaw)
              subscribed_late_state 0 cl)
    as [_ Hd]; [by vm_compute..|].
  destruct Hd as (_ & Hr & _); [by vm_compute|].
  exists cl. split; [by vm_compute|]. split; [by vm_compute|]. done.
Defined.

(** ** Deduplication: the map, the cleanup and the retry loop *)

(** A call that has not finished is in the map of the group, under exactly
    one key: every [Do] with that key finds it, and no other key leads to
    it. *)
Theorem unfinished_call_in_map tr s c cl :
  exec tr init = Some s → heap s !! c = Some cl → ready cl = false →
  ∃ key, g_m s !! key = Some c ∧ ∀ key', g_m s !! key' = Some c → key' = key.
Proof.
  intros Hex Hc Hr. destruct (group_ok_reachable _ _ Hex) as [Hcl Hen Hun Hal].
  destruct (Hal _ _ Hc Hr) as (i & key & Hi).
  exists key. split; [eauto|]. intros key' Hk.
  destruct (Hcl _ _ Hk) as [j Hj].
  assert (j = i) as -> by (eapply Hun; eauto).
  congruence.
Qed.

(** On [two_joined_state]: the call is under "k". *)
Lemma unfinished_call_in_map_witness :
  ∃ key, g_m two_joined_state !! key = Some 0.
Proof.
  destruct (unfinished_call_in_map two_joined two_joined_state 0
              (default (newCall 0) (heap two_joined_state !! 0)))
    as (key & Hk & _); [by vm_compute..|].
  by exists key.
Defined.

(** The cleanup goroutine of a call moves only once the call has finished;
    the entry it deletes is the entry of its own call; it changes no call
    and no other entry, and afterwards no key leads to that call. *)
Theorem cleanup_removes_own_entry tr s i c key s' :
  exec tr init = Some s → tasks s !! i = Some (TCleanup c key) →
  step (LStep i) s = Some s' →
  (∃ cl, heap s !! c = Some cl ∧ ready cl = true) ∧
  g_m s !! key = Some c ∧
  g_m s' = delete key (g_m s) ∧ heap s' = heap s ∧
  ∀ key', g_m s' !! key' ≠ Some c.
Proof.
  intros Hex Hi Hs. pose proof (group_ok_reachable _ _ Hex) as Hg.
  pose proof Hg as [Hcl Hen Hun Hal].
  unfold step in Hs. rewrite Hi in Hs. simpl in Hs.
  destruct (heap s !! c) as [cl|] eqn:Hc; [|done]. simpl in Hs.
  destruct (ready cl) eqn:Hr; [|done]. injection Hs as <-. simpl.
  split; [eauto|]. split; [eauto|]. split; [done|]. split; [done|].
  intros key' Hk. apply lookup_delete_Some in Hk as [Hne Hk].
  destruct (Hcl _ _ Hk) as [j Hj].
  assert (j = i) as -> by (eapply Hun; eauto). congruence.
Qed.

(** On [stale_entry_state]: the cleanup (task 3) empties the map. *)
Lemma cleanup_removes_own_entry_witness :
  ∃ s', step (LStep 3) stale_entry_state = Some s' ∧
        g_m s' = delete "k" (g_m stale_entry_state) ∧
        ∀ key', g_m s' !! key' ≠ Some 0.
Proof.
  pose (s' := default init (step (LStep 3) stale_entry_state)).
  destruct (cleanup_removes_own_entry stale_entry stale_entry_state 3 0 "k" s')
    as (_ & _ & Hm & _ & Hno); [by vm_compute..|].
  exists s'. split; [by vm_compute|]. by split.
Defined.

(** A caller that finds in the map a call that has finished makes no
    progress by itself: [Do] and the retry of lines 34-37 bring the system
    back to the very same state.  The cleanup of that call is pending and can
    move; after it the key is absent and the caller is still at the entry of
    [Do]. *)
Theorem retry_waits_for_cleanup tr s i x key f c cl :
  exec tr init = Some s → tasks s !! i = Some (TDo x key f) →
  g_m s !! key = Some c → heap s !! c = Some cl →
  ready cl = true → mu cl = false →
  exec [LStep i; LStep i] s = Some s ∧
  ∃ j s', tasks s !! j = Some (TCleanup c key) ∧
          step (LStep j) s = Some s' ∧ g_m s' !! key = None ∧
          tasks s' !! i = Some (TDo x key f).
Proof.
  intros Hex Hi Hk Hc Hr Hmu.
  assert (i < length (tasks s)) by eauto using lookup_lt_Some.
  split.
  - assert (step (LStep i) s
            = Some (upd_task i (TWait c x key f Line33) s)) as Hs1.
    { unfold step. rewrite Hi. simpl. by rewrite Hk. }
    assert (step (LStep i) (upd_task i (TWait c x key f Line33) s)
            = Some s) as Hs2.
    { unfold step. simpl. rewrite list_lookup_insert_eq by done. simpl.
      rewrite Hc. simpl. rewrite Hmu, Hr. unfold upd_task. simpl.
      rewrite list_insert_insert_eq, list_insert_id by done.
      by destruct s. }
    cbn [exec]. rewrite Hs1. cbn [mbind option_bind]. by rewrite Hs2.
  - destruct (group_ok_reachable _ _ Hex) as [Hcl _ _ _].
    destruct (Hcl _ _ Hk) as [j Hj].
    exists j, (upd_task j TExit (set_g_m (delete key (g_m s)) s)).
    split; [done|]. unfold step. rewrite Hj. simpl. rewrite Hc. simpl.
    rewrite Hr. split; [done|]. simpl. split; [apply lookup_delete_eq|].
    rewrite list_lookup_insert_ne; [done|]. congruence.
Qed.

(** On [stale_entry_state]: the third caller (task 6) spins. *)
Lemma retry_waits_for_cleanup_witness :
  exec [LStep 6; LStep 6] stale_entry_state = Some stale_entry_state.
Proof.
  apply (retry_waits_for_cleanup stale_entry stale_entry_state 6 ctxC "k" 0 0
           (default (newCall 0) (heap stale_entry_state !! 0)));
    by vm_compute.
Defined.

(** ** The mutex of a call *)

Lemma mu_signal w cl : mu (signal w cl) = mu cl.
Proof.
  unfold signal. destruct (done (ctx cl)); [done|].
  by destruct (signal_loop _ _ _).
Qed.

Lemma step_l_holder l s s' :
  lock_ok s → step l s = Some s' →
  ∀ i c x key f from, tasks s' !! i = Some (TAppend c x key f from) →
    ∃ cl, heap s' !! c = Some cl ∧ mu cl = true.
Proof.
  intros [Hheld Hholder Huniq] H j c' x' key' f' from' Hj.
  step_cases H; simpl in *.
  all: split_task_lookups; simplify_eq/=.
  all: try by Do_cases.
  all: try (destruct (Hholder _ _ _ _ _ _ Hj) as (cl0 & Hc0 & Hm0)).
  all: try (eexists; split; [by apply lookup_app_l_Some|done]).
  all: try by eauto.
  all: try match goal with
           | |- ∃ _, <[?c0:=?new]> _ !! ?c1 = _ ∧ _ =>
               destruct (decide (c1 = c0)) as [->|];
               [ exists new;
                 rewrite list_lookup_insert_eq by eauto using lookup_lt_Some;
                 split; [done|]; simplify_eq/=; rewrite ?mu_signal;
                 try done; try congruence
               | exists cl0; by rewrite list_lookup_insert_ne by done ]
           end.
  - eexists. rewrite list_lookup_insert_eq by eauto using lookup_lt_Some.
    by split.
  - match goal with
    | Hne : ?i ≠ ?j, Hi : tasks _ !! ?i = Some (TAppend _ _ _ _ _) |- _ =>
        destruct Hne; eapply Huniq; [exact Hi|exact Hj]
    end.
Qed.

Lemma step_l_held l s s' :
  lock_ok s → step l s = Some s' →
  ∀ c cl, heap s' !! c = Some cl → mu cl = true →
    ∃ i x key f from, tasks s' !! i = Some (TAppend c x key f from).
Proof.
  intros [Hheld Hholder Huniq] H c' cl' Hc Hm.
  step_cases H; simpl in *.
  all: split_lookups; simplify_eq/=; rewrite ?mu_signal in *.
  all: try (destruct (Hheld _ _ Hc Hm) as (i' & x' & k' & f' & fr' & Hi');
            exists i', x', k', f', fr'; simpl;
            rewrite ?lookup_app_l
              by (rewrite ?length_insert; eauto using lookup_lt_Some);
            rewrite ?list_lookup_insert_ne by congruence; done).
  all: try congruence.
  all: try (simpl in Hm;
            match goal with
            | Hc0 : heap _ !! _ = Some ?cl0 |- _ =>
                destruct (Hheld _ _ Hc0 Hm) as (i' & x' & k' & f' & fr' & Hi');
                exists i', x', k', f', fr'; simpl;
                rewrite ?lookup_app_l
                  by (rewrite ?length_insert; eauto using lookup_lt_Some);
                rewrite ?list_lookup_insert_ne by congruence; done
            end).
  eexists _, _, _, _, _. apply list_lookup_insert_eq.
  eauto using lookup_lt_Some.
Qed.

Lemma step_l_uniq l s s' :
  lock_ok s → step l s = Some s' →
  ∀ i j c x y key f from key' f' from',
    tasks s' !! i = Some (TAppend c x key f from) →
    tasks s' !! j = Some (TAppend c y key' f' from') →
    i = j.
Proof.
  intros [Hheld Hholder Huniq] H i j c' x' y' k1 f1 fr1 k2 f2 fr2 Hi Hj.
  step_cases H; simpl in *.
  all: split_task_lookups; simplify_eq/=; eauto.
  all: try by Do_cases.
  all: match goal with
       | Ht : tasks _ !! _ = Some (TAppend _ _ _ _ _) |- _ =>
           destruct (Hholder _ _ _ _ _ _ Ht) as (? & ? & ?); congruence
       end.
Qed.

Lemma lock_ok_init : lock_ok init.
Proof. split; intros *; simpl; by rewrite ?lookup_nil. Qed.

Lemma lock_ok_step l s s' : lock_ok s → step l s = Some s' → lock_ok s'.
Proof.
  intros Hl H. split; eauto using step_l_held, step_l_holder, step_l_uniq.
Qed.

Lemma lock_ok_exec tr s s' : lock_ok s → exec tr s = Some s' → lock_ok s'.
Proof.
  revert s. induction tr as [|l tr IH]; intros s Hl H; simplify_option_eq;
    eauto using lock_ok_step.
Qed.

(** The mutex [c.mu] is held only by a caller that is between the test of
    [c.ready] and the end of [append]; there is at most one such caller per
    call; its next step is never blocked, registers its context, releases
    the mutex and leaves the caller suspended at the [select] of [wait]. *)
Theorem mu_is_released tr s c cl :
  exec tr init = Some s → heap s !! c = Some cl → mu cl = true →
  ∃ i x key f from s' cl',
    tasks s !! i = Some (TAppend c x key f from) ∧
    (∀ j y key' f' from',
       tasks s !! j = Some (TAppend c y key' f' from') → j = i) ∧
    step (LStep i) s = Some s' ∧ heap s' !! c = Some cl' ∧
    mu cl' = false ∧ ctxs cl' = ctxs cl ++ [x] ∧
    tasks s' !! i = Some (TSelect c x key f from).
Proof.
  intros Hex Hc Hm.
  destruct (lock_ok_exec _ _ _ lock_ok_init Hex) as [Hheld Hholder Huniq].
  destruct (Hheld _ _ Hc Hm) as (i & x & key & f & from & Hi).
  assert (i < length (tasks s)) by eauto using lookup_lt_Some.
  assert (c < length (heap s)) by eauto using lookup_lt_Some.
  destruct (append cl x) as [c1 out] eqn:Hap.
  exists i, x, key, f, from,
    (spawn [TWatch c x; TOnce c]
       (upd_task i (TSelect c x key f from)
          (emit out (upd_call c (set_mu false c1) s)))),
    (set_mu false c1).
  split; [done|]. split; [by eauto|]. split.
  { unfold step. rewrite Hi. simpl. rewrite Hc. simpl. by rewrite Hap. }
  simpl. rewrite list_lookup_insert_eq by done.
  rewrite lookup_app_l by (by rewrite length_insert).
  rewrite list_lookup_insert_eq by done.
  apply append_fst_eq in Hap as ->.
  destruct (append_fields cl x) as (_ & -> & _). by repeat split.
Qed.

(** On [plain_joins_state]: the caller holds the mutex of its call. *)
Lemma mu_is_released_witness :
  ∃ s' cl', step (LStep 0) plain_joins_state = Some s' ∧
            heap s' !! 0 = Some cl' ∧ mu cl' = false.
Proof.
  destruct (mu_is_released plain_joins plain_joins_state 0
              (default (newCall 0) (heap plain_joins_state !! 0)))
    as (i & x & key & f & from & s' & cl' & Hi & _ & Hs & Hc & Hm & _);
    [by vm_compute..|].
  vm_compute in Hi. destruct i as [|[|[|i]]]; simplify_eq. eauto.
Defined.

(** ** What [Do] returns *)

(** Everything [Do] returns is one of three things: the pair the work
    function returned, from a call that has finished, to a caller registered
    with it; or a nil result with the caller's own context error, to a
    registered caller whose context has completed, while the merged context
    has not completed and some registered context is still active; or
    [(nil, errRetry)] from the test of [c.ready] in the call of [wait] at
    line 51, on a call that has already finished.  In the first two cases the
    error is not [errRetry] when the call of [wait] was made at line 33: the
    test of line 34 would have called [Do] again. *)
Theorem Do_returns_one_of tr s l s' i t v e :
  exec tr init = Some s → step l s = Some s' →
  tasks s !! i = Some t → t ≠ TReturned v e →
  tasks s' !! i = Some (TReturned v e) →
  (∃ c x key f from cl,
     (t = TSelect c x key f from ∨ t = TAwait c x key f from) ∧
     heap s !! c = Some cl ∧ x ∈ ctxs cl ∧ real_result cl v e ∧
     handed_on from e) ∨
  (∃ c x key f from cl err y,
     t = TInner c x key f from ∧ heap s !! c = Some cl ∧ x ∈ ctxs cl ∧
     v = None ∧ e = Some err ∧ ctx_Err (cworld s) x = Some err ∧
     handed_on from e ∧ done (ctx cl) = false ∧
     y ∈ ctxs cl ∧ ctx_Err (cworld s) y = None) ∨
  (∃ c x key f cl, t = TWait c x key f Line51 ∧ heap s !! c = Some cl ∧
                   ready cl = true ∧ v = None ∧ e = Some errRetry).
Proof.
  intros Hex Hs Hi Hne Hi'.
  destruct (wf_reachable _ _ Hex) as [Hinv Hwf].
  pose proof (exec_inner_completed _ _ _ Hex inner_completed_init) as Hin.
  pose proof (wf_tasks _ Hwf _ _ Hi) as Hreg.
  destruct (step_return _ _ _ _ _ _ _ Hs Hi Hi') as [?|Hby]; [done|].
  destruct Hby as [c x key f cl -> Hc Hr -> ->
                  |c x key f from cl Ht Hc Hr -> -> Hh
                  |c x key f from cl -> Hc Hmu Hd -> -> Hh].
  - right; right. eauto 10.
  - left. exists c, x, key, f, from, cl.
    assert (x ∈ ctxs cl) as Hx.
    { destruct Ht as [-> | ->]; simpl in Hreg;
        destruct Hreg as (cl0 & Hc0 & ?); congruence. }
    pose proof (real_result_ready cl (inv_calls _ Hinv _ _ Hc) Hr) as Hreal.
    by repeat split; try apply Hreal.
  - right; left. simpl in Hreg. destruct Hreg as (cl0 & Hc0 & Hx).
    assert (cl0 = cl) as -> by congruence.
    destruct (Hin _ _ _ _ _ _ Hi) as [err Herr].
    assert (done (ctx cl) = false) as Hd0.
    { destruct (done (ctx cl)) eqn:E; [|done].
      by rewrite signal_done_mono, E in Hd. }
    destruct (signal_fires (cworld s) cl Hd0) as (Hiff & _).
    assert (¬ Forall (completed (cworld s)) (ctxs cl)) as Hnot
      by (rewrite <- Hiff; congruence).
    apply not_Forall_Exists in Hnot; [|intros z; apply _].
    apply Exists_exists in Hnot as (y & Hy & Hny).
    exists c, x, key, f, from, cl, err, y. unfold ctx_Err in *.
    repeat split; try done.
    by apply eq_None_not_Some.
Qed.

(** On [one_leaves_state]: the leaver's return is of the second kind. *)
Lemma Do_returns_one_of_witness :
  ∃ y, y ∈ [ctxA; ctxB] ∧ ctx_Err (cworld one_leaves_state) y = None.
Proof.
  destruct (Do_returns_one_of one_leaves one_leaves_state (LStep 0)
              one_left_state 0 (TInner 0 ctxA "k" 0 Line51) None
              (Some Canceled))
    as [H|[H|H]]; [by vm_compute..| | |].
  - destruct H as (c & x & key & f & from & cl & [?|?] & _); done.
  - destruct H as (c & x & key & f & from & cl & err & y & Ht & Hc & _ & _ & _
                   & _ & _ & _ & Hy & Hn).
    injection Ht as <- <- <- <- <-. vm_compute in Hc. injection Hc as <-.
    by exists y.
  - destruct H as (c & x & key & f & cl & ? & _). done.
Defined.

(** ** The progress reader *)

Lemma ps_done_add ps pw : ps_done (add ps pw).1 = ps_done ps.
Proof. unfold add. by repeat case_match. Qed.

Lemma ps_done_append cl x :
  ps_done (progress_st (append cl x).1) = ps_done (progress_st cl).
Proof.
  rewrite progress_st_append. destruct (cwriter x); [|done].
  apply ps_done_add.
Qed.

Lemma run_iter_continues ps r p0 w :
  run_iter ps r = (p0, w, true) → ps_done p0 = ps_done ps.
Proof.
  destruct r as [batch| |]; simpl; [|done..].
  rewrite run_item_fold. by intros [= <- _].
Qed.

Lemma step_r_uniq l s s' :
  wf s → reader_ok s → step l s = Some s' →
  ∀ i j c, tasks s' !! i = Some (TProgress c) →
           tasks s' !! j = Some (TProgress c) → i = j.
Proof.
  intros [Htasks _ _] [Huniq Hlive] H i j c' Hi Hj.
  pose proof (λ i c (Ht : tasks s !! i = Some (TProgress c)),
                lookup_lt_is_Some_1 _ _ (Htasks _ _ Ht)) as Hlt.
  step_cases H; simpl in *.
  all: split_task_lookups; simplify_eq/=; eauto.
  all: try by Do_cases.
  all: try lia.
  all: try match goal with
           | Ht : tasks _ !! _ = Some (TProgress (length _)) |- _ =>
               apply Hlt in Ht; lia
           end.
  all: repeat case_match; simplify_eq; eauto.
Qed.

Lemma step_r_live l s s' :
  reader_ok s → step l s = Some s' →
  ∀ i c, tasks s' !! i = Some (TProgress c) →
    ∃ cl, heap s' !! c = Some cl ∧ ps_done (progress_st cl) = false.
Proof.
  intros [Huniq Hlive] H j c' Hj.
  step_cases H; simpl in *.
  all: split_task_lookups; simplify_eq/=.
  all: try by Do_cases.
  all: try (destruct (Hlive _ _ Hj) as (cl0 & Hc0 & Hd0)).
  all: try (eexists; split; [by apply lookup_app_l_Some|done]).
  all: try by eauto.
  all: try (eexists; split;
            [by rewrite lookup_app_r, Nat.sub_diag by done|done]).
  all: try match goal with
           | Hp : append ?cl ?x = (?c1, _) |- _ =>
               apply append_fst_eq in Hp; subst c1
           end.
  all: try match goal with
           | |- ∃ _, <[?c0:=?new]> _ !! ?c1 = _ ∧ _ =>
               destruct (decide (c1 = c0)) as [->|];
               [ exists new;
                 rewrite list_lookup_insert_eq by eauto using lookup_lt_Some;
                 split; [done|]; simplify_eq/=;
                 rewrite ?progress_st_signal, ?ps_done_append; try done
               | exists cl0; by rewrite list_lookup_insert_ne by done ]
           end.
  - destruct b; simplify_eq.
    destruct (Hlive _ _ Heqo) as (cl0 & Hc0 & Hd0). simplify_eq.
    eexists. rewrite list_lookup_insert_eq by eauto using lookup_lt_Some.
    split; [done|]. simpl. by rewrite (run_iter_continues _ _ _ _ Heqp).
  - match goal with
    | Hne : ?i ≠ ?j, Hi : tasks _ !! ?i = Some (TProgress _) |- _ =>
        destruct Hne; eapply Huniq; [exact Hi|exact Hj]
    end.
Qed.

Lemma reader_ok_init : reader_ok init.
Proof. split; intros *; simpl; by rewrite ?lookup_nil. Qed.

Lemma reader_ok_step l s s' :
  wf s → reader_ok s → step l s = Some s' → reader_ok s'.
Proof. intros Hwf Hr H. split; eauto using step_r_uniq, step_r_live. Qed.

Lemma reader_ok_exec tr s s' :
  inv s → wf s → reader_ok s → exec tr s = Some s' → reader_ok s'.
Proof.
  revert s. induction tr as [|l tr IH]; intros s Hinv Hwf Hr H;
    simplify_option_eq; eauto using reader_ok_step, wf_step, inv_step.
Qed.

Lemma step_reader_lost l s s' c :
  step l s = Some s' → reader_lost s c → reader_lost s' c.
Proof.
  intros H [Hno (cl & Hc & Hd)].
  assert (c < length (heap s)) as Hlt by eauto using lookup_lt_Some.
  split.
  - intros j Hj. step_cases H; simpl in *.
    all: split_task_lookups; simplify_eq/=; try by eapply Hno.
    all: try by Do_cases.
    all: try lia.
    all: repeat case_match; simplify_eq; by eapply Hno.
  - step_cases H; simpl in *.
    all: try (exists cl; split; [done|done]).
    all: try (exists cl; split; [by apply lookup_app_l_Some|done]).
    all: try match goal with
             | Hp : append ?cl ?x = (?c1, _) |- _ =>
                 apply append_fst_eq in Hp; subst c1
             end.
    all: match goal with
         | |- ∃ _, <[?c0:=?new]> _ !! _ = _ ∧ _ =>
             destruct (decide (c = c0)) as [->|];
             [ exists new; rewrite list_lookup_insert_eq by done;
               split; [done|]; simplify_eq/=;
               rewrite ?progress_st_signal, ?ps_done_append; try done
             | exists cl; by rewrite list_lookup_insert_ne by done ]
         end.
    by edestruct Hno.
Qed.

Lemma exec_reader_lost tr s s' c :
  exec tr s = Some s' → reader_lost s c → reader_lost s' c.
Proof.
  revert s. induction tr as [|l tr IH]; intros s H Hl; simplify_option_eq;
    eauto using step_reader_lost.
Qed.

(** When [pr.Read] fails with an error other than [io.EOF],
    [progressState.run] returns without a call on any writer and without
    changing a call: the done flag is not set and no subscribed writer is
    closed.  From then on the call has no progress reader and its
    multiplexer is never done, in any later state. *)
Theorem read_error_is_silent tr s i c s' tr2 s2 :
  exec tr init = Some s → tasks s !! i = Some (TProgress c) →
  step (LRead i ReadErr) s = Some s' → exec tr2 s' = Some s2 →
  log s' = log s ∧ heap s' = heap s ∧ tasks s' !! i = Some TExit ∧
  (∀ j, tasks s2 !! j ≠ Some (TProgress c)) ∧
  ∃ cl2, heap s2 !! c = Some cl2 ∧ ps_done (progress_st cl2) = false.
Proof.
  intros Hex Hi Hs Hex2. destruct (wf_reachable _ _ Hex) as [Hinv Hwf].
  destruct (reader_ok_exec _ _ _ inv_init wf_init reader_ok_init Hex)
    as [Huniq Hlive].
  destruct (Hlive _ _ Hi) as (cl & Hc & Hd).
  assert (i < length (tasks s)) by eauto using lookup_lt_Some.
  unfold step in Hs. rewrite Hi in Hs. simpl in Hs. rewrite Hc in Hs.
  simpl in Hs. injection Hs as <-. simpl.
  assert (set_progress_st (progress_st cl) cl = cl) as Heq by (by destruct cl).
  rewrite Heq, app_nil_r, (list_insert_id _ _ _ Hc).
  split; [done|]. split; [done|].
  split; [by apply list_lookup_insert_eq|].
  match type of Hex2 with
  | exec _ ?s1 = _ => assert (reader_lost s1 c) as Hlost
  end.
  { split; simpl.
    - intros j Hj. apply list_lookup_insert_Some in Hj as [(_ & ? & _)|[Hne Hj]];
        [done|]. destruct Hne. eauto.
    - rewrite Heq, (list_insert_id _ _ _ Hc). eauto. }
  by apply (exec_reader_lost _ _ _ _ Hex2) in Hlost.
Qed.

(** On [progress_flows]: after the read error the call finishes, the caller
    returns, and the multiplexer is still not done. *)
Lemma read_error_is_silent_witness :
  ∃ cl2, heap after_read_failed_state !! 0 = Some cl2 ∧
         ready cl2 = true ∧ ps_done (progress_st cl2) = false ∧
         writers (progress_st cl2) = [rawWriter].
Proof.
  destruct (read_error_is_silent progress_flows progress_flows_state 1 0
              read_failed_state after_read_failed after_read_failed_state)
    as (_ & _ & _ & _ & cl2 & Hc2 & Hd); [by vm_compute..|].
  exists cl2. split; [done|]. vm_compute in Hc2. by simplify_eq.
Defined.
